(** * asciinema-edit: a shallow embedding of [Recording] and its editing methods

    The source is [src/asciinema_edit.py].  A recording is a header line and a
    body, a Python list of events [[timestamp, kind, data]].  Every method of
    [Recording] mutates [self.body]; here a method is a function from the body
    before the call to the outcome of the call: the body afterwards, or the
    exception the method raises.

    The events of a body loaded by [__init__] are pairwise distinct list
    objects (one [json.loads] per line), so the body a method is given is a
    list of event values.  [excise] is the one method that can put the same
    event object into its new body twice (a range whose end index is below
    its start index makes two of its slices overlap); there the new body is a
    list of references into the events, and [renormalize] and [quantize]
    write through them.

    Kinds and payloads are strings; which characters count as alphanumeric
    is a parameter of [del_in_word], instantiated with the ASCII letters and
    digits on concrete streams. *)

From Stdlib Require Import ZArith QArith Qcanon String Ascii Lia.
From Stdlib Require Import PrimFloat SpecFloat FloatOps FloatAxioms.
From stdpp Require Import base list strings sorting.

Set Warnings "-inexact-float".
Close Scope Q_scope.
Close Scope Qc_scope.
Local Open Scope string_scope.
Local Open Scope list_scope.
Local Open Scope nat_scope.

(** ** Python outcomes: a value or a raised exception *)

Inductive exn : Set :=
  | IndexError
  | TypeError
  | ZeroDivisionError
  | UnboundLocalError
  | AssertionError.

Inductive result (A : Type) : Type :=
  | Ok (a : A)
  | Raise (e : exn).
Arguments Ok {A} a.
Arguments Raise {A} e.

#[global] Instance result_ret : MRet result := @Ok.
#[global] Instance result_bind : MBind result := λ A B f m,
  match m with
  | Ok a => f a
  | Raise e => Raise e
  end.

(** [l[i]] for a non-negative index: [IndexError] out of range. *)
Definition getitem {A} (l : list A) (i : nat) : result A :=
  match l !! i with
  | Some x => Ok x
  | None => Raise IndexError
  end.

(** [l[-1]]. *)
Definition getitem_last {A} (l : list A) : result A :=
  match last l with
  | Some x => Ok x
  | None => Raise IndexError
  end.

(** [l[a:b]] for non-negative [a], [b]: empty when [b <= a], clipped at the end. *)
Definition slice {A} (a b : nat) (l : list A) : list A := take (b - a) (drop a l).

(** [l[a:b] = items] for non-negative [a], [b]: when [b < a] the items are
    inserted at [a] and nothing is removed. *)
Definition slice_assign {A} (a b : nat) (items l : list A) : list A :=
  take a l ++ items ++ drop (a `max` b) l.

(** [range(n)]: empty for [n <= 0]. *)
Definition py_range (n : Z) : list nat := seq 0 (Z.to_nat n).

(** [range(lo, hi)] for a non-negative [lo]. *)
Definition py_range_from (lo : nat) (hi : Z) : list nat :=
  seq lo (Z.to_nat (hi - Z.of_nat lo)).

(** [for i in idxs: s = step(i, s)], stopping at the first exception. *)
Fixpoint for_range {S : Type} (idxs : list nat) (step : nat → S → result S) (s : S)
  : result S :=
  match idxs with
  | [] => Ok s
  | i :: rest => s' ← step i s; for_range rest step s'
  end.

(** ** Numbers

    Timestamps, delays and factors are Python numbers.  The methods use them
    through [+], [-], [*], [/], [<] and [==] only, collected here as an
    interface with two instances: binary64 floats, what [json.loads] returns
    for [1.5], and exact rationals. *)

Class Num (T : Type) : Type := {
  num_zero : T;
  num_one : T;
  num_add : T → T → T;
  num_sub : T → T → T;
  num_mul : T → T → T;
  num_div : T → T → T;
  num_lt : T → T → bool;
  num_eq : T → T → bool
}.

Declare Scope num_scope.
Delimit Scope num_scope with num.
Infix "⊕" := num_add (at level 50, left associativity) : num_scope.
Infix "⊖" := num_sub (at level 50, left associativity) : num_scope.
Infix "⊗" := num_mul (at level 40, left associativity) : num_scope.
Infix "⊘" := num_div (at level 40, left associativity) : num_scope.
Local Open Scope num_scope.

(** Python floats: IEEE 754 binary64, round to nearest even. *)
#[global] Instance float_num : Num float := {|
  num_zero := 0%float;
  num_one := 1%float;
  num_add := PrimFloat.add;
  num_sub := PrimFloat.sub;
  num_mul := PrimFloat.mul;
  num_div := PrimFloat.div;
  num_lt := PrimFloat.ltb;
  num_eq := PrimFloat.eqb
|}.

Definition Qc_ltb (x y : Qc) : bool :=
  match (x ?= y)%Qc with
  | Lt => true
  | _ => false
  end.

(** Rationals: the same operations without rounding. *)
#[global] Instance Qc_num : Num Qc := {|
  num_zero := Q2Qc 0;
  num_one := Q2Qc 1;
  num_add := Qcplus;
  num_sub := Qcminus;
  num_mul := Qcmult;
  num_div := Qcdiv;
  num_lt := Qc_ltb;
  num_eq := Qc_eq_bool
|}.

(** The laws of exact arithmetic that the theorems below rely on.  [Qc]
    satisfies them; binary64 does not (additions and subtractions round). *)
Class ExactNum (T : Type) `{Num T} : Prop := {
  sub_diag : ∀ x : T, x ⊖ x = num_zero;
  sub_zero_r : ∀ x : T, x ⊖ num_zero = x;
  add_sub_cancel : ∀ a b : T, a ⊕ (b ⊖ a) = b;
  sub_add_cancel : ∀ a d : T, (a ⊕ d) ⊖ a = d;
  sub_sub_cancel : ∀ a b c : T, (a ⊖ c) ⊖ (b ⊖ c) = a ⊖ b;
  mul_one_r : ∀ d : T, d ⊗ num_one = d;
  div_one_one : (num_one ⊘ num_one : T) = num_one;
  one_ne_zero : num_eq (num_one : T) num_zero = false
}.

(** The laws of [<] that bisection relies on: a strict total order. *)
Class OrderedNum (T : Type) `{Num T} : Prop := {
  lt_irrefl : ∀ x : T, num_lt x x = false;
  lt_cotrans : ∀ a b c : T, num_lt a c = true → num_lt a b = true ∨ num_lt b c = true;
  lt_asym : ∀ a b : T, num_lt a b = true → num_lt b a = false;
  lt_total : ∀ a b : T, num_lt a b = false → num_lt b a = false → a = b
}.

(** [min(a, b)]: the first argument unless the second is smaller. *)
Definition py_min {T} `{Num T} (a b : T) : T := if num_lt b a then b else a.

(** [a <= b]. *)
Definition num_le {T} `{Num T} (a b : T) : bool := num_lt a b || num_eq a b.

(** ** Events and the body *)

Section Recording.
Context {T : Type} `{Num T}.

(** An event [[timestamp, kind, data]]: [e[0]], [e[1]], [e[2]]. *)
Record event : Type := Event { ts : T; kind : string; data : string }.

(** [e[0] = v]. *)
Definition set_ts (e : event) (v : T) : event :=
  {| ts := v; kind := kind e; data := data e |}.

(** [[elem[0] for elem in self.body]]. *)
Definition timestamps_of (body : list event) : list T := ts <$> body.

(** *** renormalize *)

Definition renormalize (body : list event) : result (list event) :=
  e0 ← getitem body 0;
  let first_start := ts e0 in
  Ok ((λ line, set_ts line (ts line ⊖ first_start)) <$> body).

(** *** The rebuilding loop shared by [quantize] and [speed]

    [for idx in range(1, len(self.body)):
       self.body[idx][0] = self.body[idx - 1][0] + deltas[idx]]. *)
Definition rebuild (deltas : list T) (body : list event) : result (list event) :=
  for_range (py_range_from 1 (Z.of_nat (length body)))
    (λ idx body,
       prev ← getitem body (idx - 1);
       d ← getitem deltas idx;
       e ← getitem body idx;
       Ok (<[idx := set_ts e (ts prev ⊕ d)]> body))
    body.

(** [deltas = [0]
    for i in range(len(timestamps) - 1):
        deltas.append(f(timestamps[i + 1] - timestamps[i]))]
    where [f] is [min(max_delay, _)] in [quantize] and the identity in
    [speed]. *)
Definition deltas_of (f : T → T) (timestamps : list T) : result (list T) :=
  for_range (py_range (Z.of_nat (length timestamps) - 1))
    (λ i deltas,
       a ← getitem timestamps (i + 1);
       b ← getitem timestamps i;
       Ok (deltas ++ [f (a ⊖ b)]))
    [num_zero].

(** *** quantize *)

Definition quantize (max_delay : T) (body : list event) : result (list event) :=
  let timestamps := timestamps_of body in
  deltas ← deltas_of (py_min max_delay) timestamps;
  rebuild deltas body.

(** *** bisect.bisect_left, as in CPython's [Lib/bisect.py]

    [while lo < hi:
         mid = (lo + hi) // 2
         if a[mid] < x: lo = mid + 1
         else: hi = mid
     return lo]

    The loop is unrolled [fuel] times; [hi - lo] shrinks at every turn, so
    [length a] turns are enough ([bisect_loop_fuel] below).  [mid] stays
    below [hi <= len(a)], so [a[mid]] is always there. *)
Fixpoint bisect_loop (fuel : nat) (a : list T) (x : T) (lo hi : nat) : nat :=
  match fuel with
  | O => lo
  | S fuel' =>
      if decide (lo < hi) then
        let mid := (lo + hi) / 2 in
        match a !! mid with
        | Some am =>
            if num_lt am x then bisect_loop fuel' a x (mid + 1) hi
            else bisect_loop fuel' a x lo mid
        | None => lo
        end
      else lo
  end.

Definition bisect_left (a : list T) (x : T) : nat :=
  bisect_loop (length a) a x 0 (length a).

(** *** parse_ranges_to_indices *)

(** [sorted(l, key=key)]: a stable sort; insertion from the right keeps
    equal keys in their order. *)
Fixpoint insert_by {A} (key : A → nat) (x : A) (l : list A) : list A :=
  match l with
  | [] => [x]
  | y :: l' => if decide (key y < key x) then y :: insert_by key x l' else x :: y :: l'
  end.

Definition py_sorted {A} (key : A → nat) (l : list A) : list A :=
  foldr (insert_by key) [] l.

Definition parse_ranges_to_indices (ranges : list (T * T)) (body : list event)
  : list (nat * nat) :=
  let timestamps := timestamps_of body in
  let idx_ranges :=
    foldl (λ idx_ranges '(starttime, endtime),
             let startidx := bisect_left timestamps starttime in
             let endidx := bisect_left timestamps endtime in
             idx_ranges ++ [(startidx, endidx)])
          [] ranges in
  py_sorted fst idx_ranges.

(** *** speed *)

(** [a / b] on numbers: division by zero raises. *)
Definition py_div (a b : T) : result T :=
  if num_eq b num_zero then Raise ZeroDivisionError else Ok (a ⊘ b).

(** [deltas[startidx:endidx] = map(lambda delt: delt * speedup, deltas[startidx:endidx])]. *)
Definition scale_range (speedup : T) (deltas : list T) (idx_range : nat * nat) : list T :=
  let '(startidx, endidx) := idx_range in
  slice_assign startidx endidx
    ((λ delt, delt ⊗ speedup) <$> slice startidx endidx deltas) deltas.

Definition speed (ranges : list (T * T)) (factor : T) (body : list event)
  : result (list event) :=
  speedup ← py_div num_one factor;
  let timestamps := timestamps_of body in
  deltas ← deltas_of id timestamps;
  let idx_ranges := parse_ranges_to_indices ranges body in
  let deltas := foldl (scale_range speedup) deltas idx_ranges in
  rebuild deltas body.

(** *** keep *)

(** [ranges == 1]: a list compared with an int; neither side knows the
    other's type, the comparison falls back to identity and is [False]. *)
Definition list_eq_int {A} (l : list A) (n : Z) : bool := false.

(** [len(b)] for a bool: [bool] has no [__len__]. *)
Definition len_of_bool (b : bool) : result nat := Raise TypeError.

(** The body of [keep] below its assertion. *)
Definition keep_after_assert (ranges : list (T * T)) (body : list event)
  : result (list event) :=
  '(starttime, endtime) ← getitem ranges 0;
  let timestamps := timestamps_of body in
  let startidx := bisect_left timestamps starttime in
  let endidx := bisect_left timestamps endtime in
  let body := slice startidx (endidx + 1) body in
  body ← renormalize body;
  quantize num_one body.

(** [assert len(ranges == 1), "Keep only takes one range"], then the rest. *)
Definition keep (ranges : list (T * T)) (body : list event) : result (list event) :=
  n ← len_of_bool (list_eq_int ranges 1);
  if decide (n = 0) then Raise AssertionError
  else keep_after_assert ranges body.

(** *** Bodies that share events

    A body whose entries are references: [refs] lists, position by position,
    which event of [heap] the entry is.  Two positions with the same
    reference are the same Python object, and a write to one shows in the
    other. *)

(** [[elem for elem in self.body]], each entry read through its reference. *)
Fixpoint read_refs (heap : list event) (refs : list nat) : result (list event) :=
  match refs with
  | [] => Ok []
  | ref :: rest =>
      e ← getitem heap ref;
      es ← read_refs heap rest;
      Ok (e :: es)
  end.

(** [renormalize] on such a body: [line[0] = line[0] - first_start] once
    for every entry, so an event that is there twice is shifted twice. *)
Definition renormalize_refs (refs : list nat) (heap : list event)
  : result (list event) :=
  ref0 ← getitem refs 0;
  e0 ← getitem heap ref0;
  let first_start := ts e0 in
  for_range refs
    (λ ref heap,
       line ← getitem heap ref;
       Ok (<[ref := set_ts line (ts line ⊖ first_start)]> heap))
    heap.

(** [quantize] on such a body: the deltas come from the timestamps read
    entry by entry, and the rebuilding loop writes through the references. *)
Definition quantize_refs (max_delay : T) (refs : list nat) (heap : list event)
  : result (list event) :=
  elems ← read_refs heap refs;
  let timestamps := timestamps_of elems in
  deltas ← deltas_of (py_min max_delay) timestamps;
  for_range (py_range_from 1 (Z.of_nat (length refs)))
    (λ idx heap,
       ref_prev ← getitem refs (idx - 1);
       prev ← getitem heap ref_prev;
       d ← getitem deltas idx;
       ref ← getitem refs idx;
       e ← getitem heap ref;
       Ok (<[ref := set_ts e (ts prev ⊕ d)]> heap))
    heap.

(** *** excise

    The event objects of [self.body] are named by their positions
    [0 .. len - 1]; [new_body] is built out of slices of these, and
    [self.body = new_body] is then renormalized and quantized in place.  The
    outcome is the new body read through its references. *)
Definition excise (ranges : list (T * T)) (body : list event) : result (list event) :=
  let idx_ranges := parse_ranges_to_indices ranges body in
  let objects := seq 0 (length body) in
  first ← getitem idx_ranges 0;
  let new_body := slice 0 first.1 objects in
  new_body ←
    for_range (py_range (Z.of_nat (length idx_ranges) - 1))
      (λ i new_body,
         this ← getitem idx_ranges i;
         next ← getitem idx_ranges (i + 1);
         Ok (new_body ++ slice this.2 next.1 objects))
      new_body;
  final ← getitem_last idx_ranges;
  let new_body := new_body ++ drop final.2 objects in
  heap ← renormalize_refs new_body body;
  heap ← quantize_refs num_one new_body heap;
  read_refs heap new_body.

(** *** del_in_word *)

Section Words.
(** Python's classification of one character ([str.isalnum] on a string
    of length one). *)
Variable isalnum_char : ascii → bool.

Fixpoint all_chars (p : ascii → bool) (s : string) : bool :=
  match s with
  | EmptyString => true
  | String c s' => p c && all_chars p s'
  end.

(** [c.isalnum()]: every character is alphanumeric and there is at least one. *)
Definition isalnum (c : string) : bool :=
  match c with
  | EmptyString => false
  | _ => all_chars isalnum_char c
  end.

(** [for j in range(n): del self.body[word_start]]. *)
Fixpoint del_repeat (n word_start : nat) (body : list event) : result (list event) :=
  match n with
  | O => Ok body
  | S n' =>
      if decide (word_start < length body)
      then del_repeat n' word_start (delete word_start body)
      else Raise IndexError
  end.

(** The [for i, e in enumerate(self.body)] loop.  The list iterator keeps
    an index into the list as it is now, equal to [enumerate]'s counter
    [i]; it stops when that index reaches the current length.  [None]:
    the fuel ran out before the loop ended. *)
Fixpoint del_loop (fuel : nat) (to_delete : string) (i : nat) (body : list event)
    (word : string) (word_start : option nat) : option (result (list event)) :=
  match fuel with
  | O => None
  | S fuel' =>
      match body !! i with
      | None => Some (Ok body)
      | Some e =>
          let c := data e in
          if String.eqb (kind e) "i" && isalnum c then
            let word_start := if String.eqb word "" then Some i else word_start in
            del_loop fuel' to_delete (S i) body (word +:+ c) word_start
          else if negb (String.eqb word "") then
            if String.eqb word to_delete then
              match word_start with
              | None => Some (Raise UnboundLocalError)
              | Some ws =>
                  match del_repeat (String.length word) ws body with
                  | Ok body' => del_loop fuel' to_delete (S i) body' "" word_start
                  | Raise err => Some (Raise err)
                  end
              end
            else del_loop fuel' to_delete (S i) body "" word_start
          else del_loop fuel' to_delete (S i) body word word_start
      end
  end.

Definition del_in_word (to_delete : string) (body : list event)
  : option (result (list event)) :=
  del_loop (S (length body)) to_delete 0 body "" None.
End Words.

(** *** write *)

Record recording : Type := Recording {
  header : string;
  body : list event;
  outfname : option string
}.

Definition newline : string := String (ascii_of_nat 10) EmptyString.

(** [sep.join(lines)]. *)
Fixpoint py_join (sep : string) (lines : list string) : string :=
  match lines with
  | [] => ""
  | [l] => l
  | l :: rest => l +:+ sep +:+ py_join sep rest
  end.

Section Write.
(** [float(round(x, 7))] and [json.dumps] of an event are the Python
    library's; the frame of [write] does not depend on what they compute. *)
Variable round7 : T → T.
Variable json_dumps : event → string.

(** [write(startidx, endidx)] for non-negative indices; [endidx = None] is
    the default.  The outcome is the recording afterwards and the text
    sent to the file [outfname] or to the standard output. *)
Definition write (startidx : nat) (endidx : option nat) (r : recording)
  : recording * string :=
  let endidx :=
    match endidx with
    | None | Some O => length (body r)
    | Some n => n
    end in
  let body := (λ event, set_ts event (round7 (ts event))) <$> body r in
  let outlines := json_dumps <$> slice startidx endidx body in
  let outlines := py_join newline outlines in
  ({| header := header r; body := body; outfname := outfname r |},
   header r +:+ newline +:+ outlines).
End Write.

End Recording.
Arguments event T : clear implicits.
Arguments recording T : clear implicits.

(** ** The methods that remain: smush and print_stdin *)

Section OtherMethods.
Context {T : Type} `{Num T}.

(** *** smush

    [for ln in self.body:
         if ln[0] < start: ln[0] = 0
     self.quantize()]. *)
Definition smush (start : T) (body : list (event T)) : result (list (event T)) :=
  let body :=
    (λ ln, if num_lt (ts ln) start then set_ts ln num_zero else ln) <$> body in
  quantize num_one body.

(** *** print_stdin

    What the method prints, line by line: [print(f"{word_start_time}: {word}")]
    for a word, [pprint(f"{e[0]}: {e[2]}")] for an input event that is no
    word character.  The lines are kept as their two fields; turning a number
    into text is Python's. *)
Inductive printed : Type :=
  | PrintWord (word_start_time : T) (word : string)
  | PrintChar (time : T) (c : string).

Section Stdin.
Variable isalnum_char : ascii → bool.

(** The loop [for e in self.body], with the locals [word] and
    [word_start_time]; [not word_start_time] holds of a time equal to 0. *)
Fixpoint print_loop (body : list (event T)) (word : string) (word_start_time : T)
    (out : list printed) : list printed :=
  match body with
  | [] => out
  | e :: rest =>
      if String.eqb (kind e) "i" then
        let c := data e in
        if isalnum isalnum_char c then
          let word := word +:+ c in
          let word_start_time :=
            if num_eq word_start_time num_zero then ts e else word_start_time in
          print_loop rest word word_start_time out
        else if negb (String.eqb word "") then
          print_loop rest "" num_zero (out ++ [PrintWord word_start_time word])
        else
          print_loop rest word word_start_time (out ++ [PrintChar (ts e) (data e)])
      else print_loop rest word word_start_time out
  end.

(** [print_stdin(range)]; the argument is not used. *)
Definition print_stdin (body : list (event T)) : list printed :=
  print_loop body "" num_zero [].
End Stdin.
End OtherMethods.
Arguments printed T : clear implicits.

(** What holds of the value an outcome carries, when it is one. *)
Definition on_ok {A} (P : A → Prop) (r : result A) : Prop :=
  match r with
  | Ok a => P a
  | Raise _ => True
  end.

(** The laws that tie [+] and [-] to [<]: a difference of ordered numbers is
    not negative, and adding what is not negative does not go down. *)
Class MonotoneNum (T : Type) `{Num T} : Prop := {
  sub_nonneg : ∀ a b : T, num_lt b a = false → num_lt (b ⊖ a) num_zero = false;
  add_nonneg : ∀ a d : T, num_lt d num_zero = false → num_lt (a ⊕ d) a = false
}.

(** ASCII letters and digits, where [str.isalnum] is settled by the
    character's code alone. *)
Definition ascii_isalnum (c : ascii) : bool :=
  let n := nat_of_ascii c in
  (Nat.leb 48 n && Nat.leb n 57) || (Nat.leb 65 n && Nat.leb n 90)
  || (Nat.leb 97 n && Nat.leb n 122).

(** ** Closed forms of the loops *)

Section ClosedForms.
Context {T : Type} `{Num T}.

(** [f] of every gap between neighbours, the first one measured from [prev]. *)
Fixpoint gaps (f : T → T) (prev : T) (rest : list T) : list T :=
  match rest with
  | [] => []
  | t :: r => f (t ⊖ prev) :: gaps f t r
  end.

(** The running sums that [rebuild] writes into the events after the first. *)
Fixpoint rebuilt_from (prev : T) (ds : list T) (rest : list (event T)) : list (event T) :=
  match rest, ds with
  | e :: r, d :: ds' => set_ts e (prev ⊕ d) :: rebuilt_from (prev ⊕ d) ds' r
  | _, _ => []
  end.

(** Timestamps of a stream that do not decrease, for [<] as the code uses
    it: no timestamp is below an earlier one. *)
Fixpoint chronological (timestamps : list T) : bool :=
  match timestamps with
  | [] => true
  | x :: rest => forallb (λ y, negb (num_lt y x)) rest && chronological rest
  end.

(** Timestamps sorted in time: every timestamp is [<=] every later one.
    On binary64 such a stream is [chronological], and a stream of two
    events or more has no NaN in it; [chronological] alone does not say
    that (NaN is below nothing and nothing is below it). *)
Fixpoint ascending (timestamps : list T) : bool :=
  match timestamps with
  | [] => true
  | x :: rest => forallb (num_le x) rest && ascending rest
  end.

(** [a] is partitioned by [x]: once a timestamp is not below [x], no later
    one is.  This is all that bisection needs of the list. *)
Definition partitioned (a : list T) (x : T) : Prop :=
  ∀ (i j : nat) (y z : T),
    (i ≤ j)%nat → a !! i = Some y → a !! j = Some z →
    num_lt z x = true → num_lt y x = true.

(** [r] is the leftmost insertion point of [x] in [a]: everything before
    [r] is below [x], nothing from [r] on is. *)
Definition insertion_point (a : list T) (x : T) (r : nat) : Prop :=
  (r ≤ length a)%nat ∧
  (∀ (j : nat) (y : T), (j < r)%nat → a !! j = Some y → num_lt y x = true) ∧
  (∀ (j : nat) (y : T), (r ≤ j)%nat → a !! j = Some y → num_lt y x = false).

(** A timestamp that is [x], or compares equal to it, sits at [r] or
    after it. *)
Definition ties_from (a : list T) (x : T) (r : nat) : Prop :=
  ∀ (j : nat) (y : T), a !! j = Some y → y = x ∨ num_eq y x = true → (r ≤ j)%nat.

(** One range resolved by two bisections. *)
Definition resolved_by (timestamps : list T) (rng : T * T) : nat * nat :=
  (bisect_left timestamps rng.1, bisect_left timestamps rng.2).

(** Index ranges [s1 <= e1 <= s2 <= e2 <= ...], all from [lo] on. *)
Fixpoint ranges_chain (lo : nat) (rs : list (nat * nat)) : Prop :=
  match rs with
  | [] => True
  | (s, e) :: rs' => (lo ≤ s)%nat ∧ (s ≤ e)%nat ∧ ranges_chain e rs'
  end.

(** [i] lies in none of the half-open index ranges. *)
Definition outside (rs : list (nat * nat)) (i : nat) : bool :=
  forallb (λ r : nat * nat, negb (Nat.leb r.1 i && Nat.ltb i r.2)) rs.

(** The elements of [l] whose index, counted from [i], satisfies [p]. *)
Fixpoint filter_index {A} (p : nat → bool) (i : nat) (l : list A) : list A :=
  match l with
  | [] => []
  | x :: l' => if p i then x :: filter_index p (S i) l' else filter_index p (S i) l'
  end.

(** What [excise] builds: the first range's start, then from each end to
    the next start, then from the last end on. *)
Fixpoint splice_from {A} (e_prev : nat) (rs : list (nat * nat)) (body : list A)
  : list A :=
  match rs with
  | [] => drop e_prev body
  | r :: rs' => slice e_prev r.1 body ++ splice_from r.2 rs' body
  end.
End ClosedForms.

(** ** Two properties of the specification, stated for any kind of number *)

Section Properties.
Context {T : Type} `{Num T}.

(** Quantize boundedness: the first timestamp stays, and each gap of the
    result is at most [max_delay] where the original gap exceeded it and
    the original gap elsewhere. *)
Definition quantize_bounded (max_delay : T) (body : list (event T)) : Prop :=
  ∃ body', quantize max_delay body = Ok body' ∧
    length body' = length body ∧
    head body' = head body ∧
    ∀ (i : nat) a b a' b',
      body !! i = Some a → body !! (S i) = Some b →
      body' !! i = Some a' → body' !! (S i) = Some b' →
      (num_lt max_delay (ts b ⊖ ts a) = true →
         num_lt max_delay (ts b' ⊖ ts a') = false) ∧
      (num_lt max_delay (ts b ⊖ ts a) = false →
         ts b' ⊖ ts a' = ts b ⊖ ts a).

(** Renormalize: a second call changes nothing, the first timestamp is 0
    and every gap is the one before the call. *)
Definition renormalize_idempotent (body : list (event T)) : Prop :=
  ∃ body', renormalize body = Ok body' ∧
    renormalize body' = Ok body' ∧
    ts <$> head body' = Some num_zero ∧
    ∀ (i : nat) a b a' b',
      body !! i = Some a → body !! (S i) = Some b →
      body' !! i = Some a' → body' !! (S i) = Some b' →
      ts b' ⊖ ts a' = ts b ⊖ ts a.
End Properties.

(** ** Concrete streams *)

Definition ev (t : float) (k d : string) : event float := Event t k d.

(** The body of the recording in [tests.py]. *)
Definition fixture : list (event float) :=
  [ev 1.0 "o" "one"; ev 2.0 "o" "two"; ev 3.0 "i" "d"; ev 3.1 "i" "e";
   ev 3.2 "i" "l"; ev 4.0 "o" "three"].

Definition qev (n d : Z) (k s : string) : event Qc :=
  Event (Q2Qc (Qmake n (Z.to_pos d))) k s.

(** The same stream with rational timestamps. *)
Definition fixture_exact : list (event Qc) :=
  [qev 1 1 "o" "one"; qev 2 1 "o" "two"; qev 3 1 "i" "d"; qev 31 10 "i" "e";
   qev 32 10 "i" "l"; qev 4 1 "o" "three"].

Definition carriage_return : string := String (ascii_of_nat 13) EmptyString.

(** The word typed twice, each time closed by the return key. *)
Definition typed_twice : list (event float) :=
  [ev 1.0 "i" "d"; ev 1.1 "i" "e"; ev 1.2 "i" "l"; ev 1.3 "i" carriage_return;
   ev 2.0 "i" "d"; ev 2.1 "i" "e"; ev 2.2 "i" "l"; ev 2.3 "i" carriage_return].

(** A word that arrives as one input event (a paste), an output event, and
    a character typed last, with nothing after it. *)
Definition pasted_word : list (event float) :=
  [ev 1.0 "i" "abc"; ev 2.0 "o" "x"; ev 3.0 "i" "d"].

(** An alphanumeric input event, as [del_in_word] tests it. *)
Definition word_event (isalnum_char : ascii → bool) {T} (e : event T) : bool :=
  String.eqb (kind e) "i" && isalnum isalnum_char (data e).

(** No two neighbours of the body are both alphanumeric input events. *)
Fixpoint words_apart (isalnum_char : ascii → bool) {T} (body : list (event T)) : bool :=
  match body with
  | [] => true
  | e :: rest =>
      match rest with
      | [] => true
      | e' :: _ =>
          negb (word_event isalnum_char e && word_event isalnum_char e')
          && words_apart isalnum_char rest
      end
  end.

(** A word typed on a terminal that echoes: every key is followed by the
    output that shows it. *)
Definition typed_with_echo : list (event float) :=
  [ev 1.0 "i" "d"; ev 1.01 "o" "d"; ev 1.1 "i" "e"; ev 1.11 "o" "e";
   ev 1.2 "i" "l"; ev 1.21 "o" "l"; ev 1.3 "i" carriage_return].

(** A word with a symbol in it, typed without echo. *)
Definition typed_symbol : list (event float) :=
  [ev 1.0 "i" "p"; ev 1.1 "i" "@"; ev 1.2 "i" "s"; ev 1.3 "i" "s";
   ev 1.4 "i" carriage_return].

(** ** Rational timestamps obey the laws *)

#[global] Instance Qc_exact : ExactNum Qc.
Proof.
  split; simpl; intros.
  - ring.
  - ring.
  - ring.
  - ring.
  - ring.
  - ring.
  - by apply Qc_is_canon.
  - reflexivity.
Qed.

#[global] Instance Qc_ordered : OrderedNum Qc.
Proof.
  assert (∀ x y : Qc, Qc_ltb x y = true ↔ (x < y)%Qc) as Hlt.
  { intros x y. unfold Qc_ltb. rewrite Qclt_alt. by destruct (x ?= y)%Qc. }
  assert (∀ x y : Qc, Qc_ltb x y = false ↔ (y <= x)%Qc) as Hge.
  { intros x y. rewrite <- not_true_iff_false, Hlt. split.
    - apply Qcnot_lt_le.
    - apply Qcle_not_lt. }
  split; simpl.
  - intros x. apply Hge, Qcle_refl.
  - intros a b c Hac%Hlt. destruct (Qclt_le_dec a b) as [Hab|Hba].
    + left. by apply Hlt.
    + right. apply Hlt. by eapply Qcle_lt_trans.
  - intros a b Hab%Hlt. by apply Hge, Qclt_le_weak.
  - intros a b Hab%Hge Hba%Hge. by apply Qcle_antisym.
Qed.

#[global] Instance Qc_monotone : MonotoneNum Qc.
Proof.
  assert (∀ x y : Qc, Qc_ltb x y = true ↔ (x < y)%Qc) as Hlt.
  { intros x y. unfold Qc_ltb. rewrite Qclt_alt. by destruct (x ?= y)%Qc. }
  assert (∀ x y : Qc, Qc_ltb x y = false ↔ (y <= x)%Qc) as Hge.
  { intros x y. rewrite <- not_true_iff_false, Hlt. split.
    - apply Qcnot_lt_le.
    - apply Qcle_not_lt. }
  split; simpl.
  - intros a b Hab%Hge. apply Hge. apply Qcle_minus_iff in Hab. exact Hab.
  - intros a d Hd%Hge. apply Hge. apply Qcle_minus_iff.
    replace (a + d + - a)%Qc with d by ring. exact Hd.
Qed.

(** * Theorems *)

Lemma bind_Ok {A B} (f : A → result B) (a : A) : (Ok a ≫= f) = f a.
Proof. reflexivity. Qed.

Lemma getitem_Some {A} (l : list A) i x : l !! i = Some x → getitem l i = Ok x.
Proof. unfold getitem. by intros ->. Qed.

Lemma getitem_Ok {A} (l : list A) i x : getitem l i = Ok x → l !! i = Some x.
Proof. unfold getitem. by destruct (l !! i); intros [=->]. Qed.

(** ** Binary64

    What the theorems below need of Python's floats, from the specification
    of the primitive operations ([FloatAxioms]). *)

Lemma Prim2SF_zero : Prim2SF 0%float = S754_zero false.
Proof. reflexivity. Qed.

Lemma Prim2SF_one : Prim2SF 1%float = S754_finite false 4503599627370496 (-52).
Proof. reflexivity. Qed.

(** [y - 0.0] is [y], for every float. *)
Lemma float_sub_zero_r (y : float) : (y - 0)%float = y.
Proof.
  apply Prim2SF_inj. rewrite FloatAxioms.sub_spec, Prim2SF_zero.
  destruct (Prim2SF y) as [[]|[]| |s m e]; reflexivity.
Qed.

Lemma is_finite_spec (x : float) :
  is_finite x = true →
  match Prim2SF x with S754_infinity _ | S754_nan => False | _ => True end.
Proof.
  unfold is_finite, is_nan, is_infinity.
  rewrite !FloatAxioms.eqb_spec, FloatAxioms.abs_spec.
  change (Prim2SF infinity) with (S754_infinity false).
  destruct (Prim2SF x) as [[]|[]| |s m e]; simpl; try discriminate; trivial.
Qed.

(** [x - x] is [0.0] for every finite float; it is NaN for the others. *)
Lemma float_sub_diag (x : float) : is_finite x = true → (x - x)%float = 0%float.
Proof.
  intros Hx%is_finite_spec. apply Prim2SF_inj.
  rewrite FloatAxioms.sub_spec, Prim2SF_zero.
  destruct (Prim2SF x) as [[]|[]| |s m e]; try reflexivity; try contradiction.
  unfold SF64sub, SFsub. rewrite Z.sub_diag. reflexivity.
Qed.

Lemma SFmul_one_finite (s : bool) (m : positive) (e : Z) :
  bounded prec emax m e = true →
  SF64mul (S754_finite s m e) (S754_finite false 4503599627370496 (-52))
  = S754_finite s m e.
Proof.
  intros Hb. unfold bounded, canonical_mantissa in Hb.
  apply andb_true_iff in Hb as [Hc He]. apply Z.eqb_eq in Hc.
  unfold SF64mul, SFmul. rewrite xorb_false_r.
  rewrite Pos.mul_comm.
  let shifted := eval cbv [Pos.mul PosDef.Pos.mul] in (4503599627370496 * m)%positive in
  change (4503599627370496 * m)%positive with shifted.
  unfold binary_round_aux, shr_fexp.
  cbv [Zdigits2].
  repeat match goal with
         | |- context [digits2_pos (?p~0)] =>
             change (digits2_pos (p~0)) with (Pos.succ (digits2_pos p))
         end.
  match goal with
  | |- context [fexp prec emax (?X + (e + -52))%Z] =>
      replace (X + (e + -52))%Z with (Z.pos (digits2_pos m) + e)%Z
        by (rewrite !Pos2Z.inj_succ; lia)
  end.
  rewrite Hc. replace (e - (e + -52))%Z with 52%Z by lia.
  match goal with
  | |- context [shr ?mrs ?e0 52%Z] =>
      change (shr mrs e0 52%Z)
        with ({| shr_m := Z.pos m; shr_r := false; shr_s := false |}, (e0 + 52)%Z)
  end.
  cbv [shr_m loc_of_shr_record round_nearest_even shr_record_of_loc Zdigits2].
  replace (e + -52 + 52)%Z with e by lia.
  rewrite Hc, Z.sub_diag. cbv [shr]. rewrite He. reflexivity.
Qed.

(** [d * 1.0] is [d], for every float: the product needs no rounding. *)
Lemma float_mul_one_r (d : float) : (d * 1)%float = d.
Proof.
  apply Prim2SF_inj. rewrite FloatAxioms.mul_spec, Prim2SF_one.
  pose proof (Prim2SF_valid d) as Hv.
  destruct (Prim2SF d) as [[]|[]| |s m e]; try reflexivity.
  apply SFmul_one_finite, Hv.
Qed.

Lemma SFle_lt_trans (a b c : spec_float) :
  SFltb a b || SFeqb a b = true → SFltb b c = true → SFltb a c = true.
Proof.
  unfold SFltb, SFeqb.
  destruct a as [sa|sa| |sa ma ea], b as [sb|sb| |sb mb eb], c as [sc|sc| |sc mc ec];
    try destruct sa; try destruct sb; try destruct sc; cbn;
    try discriminate; try reflexivity; intros Hab Hbc.
  all: fold (Pos.compare ma mb) in *; fold (Pos.compare mb mc) in *;
    fold (Pos.compare ma mc) in *.
  all: destruct (Z.compare_spec ea eb), (Z.compare_spec eb ec), (Z.compare_spec ea ec);
    try discriminate; try reflexivity; try lia.
  all: subst.
  all: destruct (Pos.compare_spec ma mb), (Pos.compare_spec mb mc),
    (Pos.compare_spec ma mc); cbn in *; try discriminate; try reflexivity; try lia.
Qed.

Lemma SFle_trans (a b c : spec_float) :
  SFltb a b || SFeqb a b = true → SFltb b c || SFeqb b c = true →
  SFltb a c || SFeqb a c = true.
Proof.
  unfold SFltb, SFeqb.
  destruct a as [sa|sa| |sa ma ea], b as [sb|sb| |sb mb eb], c as [sc|sc| |sc mc ec];
    try destruct sa; try destruct sb; try destruct sc; cbn;
    try discriminate; try reflexivity; intros Hab Hbc.
  all: fold (Pos.compare ma mb) in *; fold (Pos.compare mb mc) in *;
    fold (Pos.compare ma mc) in *.
  all: destruct (Z.compare_spec ea eb), (Z.compare_spec eb ec), (Z.compare_spec ea ec);
    try discriminate; try reflexivity; try lia.
  all: subst.
  all: destruct (Pos.compare_spec ma mb), (Pos.compare_spec mb mc),
    (Pos.compare_spec ma mc); cbn in *; try discriminate; try reflexivity; try lia.
Qed.

Lemma SFle_not_gt (a b : spec_float) :
  SFltb a b || SFeqb a b = true → SFltb b a = false.
Proof.
  unfold SFltb, SFeqb.
  destruct a as [sa|sa| |sa ma ea], b as [sb|sb| |sb mb eb];
    try destruct sa; try destruct sb; cbn;
    try discriminate; try reflexivity; intros Hab.
  all: fold (Pos.compare ma mb) in *; fold (Pos.compare mb ma) in *.
  all: destruct (Z.compare_spec ea eb), (Z.compare_spec eb ea);
    try discriminate; try reflexivity; try lia.
  all: subst.
  all: destruct (Pos.compare_spec ma mb), (Pos.compare_spec mb ma);
    cbn in *; try discriminate; try reflexivity; try lia.
Qed.

(** [y <= z] and [z < x] give [y < x]. *)
Lemma float_le_lt_trans (y z x : float) :
  num_le y z = true → num_lt z x = true → num_lt y x = true.
Proof.
  unfold num_le. cbn [num_lt num_eq float_num].
  rewrite !FloatAxioms.ltb_spec, FloatAxioms.eqb_spec. apply SFle_lt_trans.
Qed.

(** [<=] is transitive on floats. *)
Lemma float_le_trans (x y z : float) :
  num_le x y = true → num_le y z = true → num_le x z = true.
Proof.
  unfold num_le. cbn [num_lt num_eq float_num].
  rewrite !FloatAxioms.ltb_spec, !FloatAxioms.eqb_spec. apply SFle_trans.
Qed.

(** [y <= z] rules out [z < y]. *)
Lemma float_le_not_gt (y z : float) : num_le y z = true → num_lt z y = false.
Proof.
  unfold num_le. cbn [num_lt num_eq float_num].
  rewrite !FloatAxioms.ltb_spec, FloatAxioms.eqb_spec. apply SFle_not_gt.
Qed.

(** No float is below itself. *)
Lemma float_lt_irrefl (x : float) : num_lt x x = false.
Proof.
  cbn [num_lt float_num]. rewrite FloatAxioms.ltb_spec. unfold SFltb.
  destruct (Prim2SF x) as [[]|[]| |[] m e]; cbn; try reflexivity.
  all: rewrite Z.compare_refl; fold (Pos.compare m m); rewrite Pos.compare_refl;
    reflexivity.
Qed.

(** Floats that compare equal are not below one another. *)
Lemma float_eq_not_lt (y x : float) : num_eq y x = true → num_lt y x = false.
Proof.
  cbn [num_lt num_eq float_num].
  rewrite FloatAxioms.ltb_spec, FloatAxioms.eqb_spec. unfold SFltb, SFeqb.
  destruct (SFcompare _ _) as [[]|]; try discriminate; reflexivity.
Qed.

Section Loops.
Context {T : Type} `{Num T}.
Implicit Types (body rest pre : list (event T)) (e p : event T).

Lemma deltas_loop (f : T → T) (all : list T) : ∀ (rest pre : list T) (p : T) acc,
  all = pre ++ p :: rest →
  for_range (seq (length pre) (length rest))
    (λ i deltas,
       a ← getitem all (i + 1);
       b ← getitem all i;
       Ok (deltas ++ [f (a ⊖ b)])) acc
  = Ok (acc ++ gaps f p rest).
Proof.
  induction rest as [|t r IH]; intros pre p acc Hall; simpl.
  - by rewrite app_nil_r.
  - rewrite (getitem_Some all (length pre + 1) t), bind_Ok.
    2:{ subst all. rewrite lookup_app_r by lia.
        by replace (length pre + 1 - length pre) with 1 by lia. }
    rewrite (getitem_Some all (length pre) p), bind_Ok.
    2:{ subst all. by rewrite list_lookup_middle. }
    rewrite bind_Ok.
    specialize (IH (pre ++ [p]) t (acc ++ [f (t ⊖ p)])).
    rewrite length_app in IH. simpl in IH.
    replace (length pre + 1) with (S (length pre)) in IH by lia.
    rewrite IH, <- app_assoc; [done|].
    subst all. by rewrite <- app_assoc.
Qed.

Lemma deltas_of_closed (f : T → T) (timestamps : list T) :
  deltas_of f timestamps =
  Ok (num_zero :: match timestamps with [] => [] | t :: r => gaps f t r end).
Proof.
  unfold deltas_of, py_range. destruct timestamps as [|t r]; [done|].
  replace (Z.to_nat (Z.of_nat (length (t :: r)) - 1)) with (length r)
    by (simpl; lia).
  by rewrite (deltas_loop f (t :: r) r [] t [num_zero]).
Qed.

Lemma rebuild_loop (deltas : list T) : ∀ rest pre p,
  length pre + 1 + length rest ≤ length deltas →
  for_range (seq (length pre + 1) (length rest))
    (λ idx body,
       prev ← getitem body (idx - 1);
       d ← getitem deltas idx;
       e ← getitem body idx;
       Ok (<[idx := set_ts e (ts prev ⊕ d)]> body)) (pre ++ p :: rest)
  = Ok (pre ++ p :: rebuilt_from (ts p) (drop (length pre + 1) deltas) rest).
Proof.
  induction rest as [|e r IH]; intros pre p Hlen; simpl.
  - by destruct (drop _ _).
  - simpl in Hlen.
    destruct (lookup_lt_is_Some_2 deltas (length pre + 1)) as [d Hd]; [lia|].
    rewrite (getitem_Some _ (length pre + 1 - 1) p), bind_Ok.
    2:{ replace (length pre + 1 - 1) with (length pre) by lia.
        by rewrite list_lookup_middle. }
    rewrite (getitem_Some _ _ d Hd), bind_Ok.
    rewrite (getitem_Some _ (length pre + 1) e), bind_Ok.
    2:{ rewrite lookup_app_r by lia.
        by replace (length pre + 1 - length pre) with 1 by lia. }
    rewrite bind_Ok.
    rewrite (drop_S _ _ _ Hd).
    replace (<[length pre + 1:=set_ts e (ts p ⊕ d)]> (pre ++ p :: e :: r))
      with ((pre ++ [p]) ++ set_ts e (ts p ⊕ d) :: r).
    2:{ rewrite <- app_assoc. simpl. rewrite insert_app_r_alt by lia.
        by replace (length pre + 1 - length pre) with 1 by lia. }
    specialize (IH (pre ++ [p]) (set_ts e (ts p ⊕ d))).
    rewrite length_app in IH. simpl in IH.
    replace (S (length pre + 1)) with (length pre + 1 + 1) by lia.
    rewrite IH by lia. simpl. by rewrite <- app_assoc.
Qed.

Lemma rebuild_closed (deltas : list T) body :
  length body ≤ length deltas →
  rebuild deltas body =
  Ok match body with
     | [] => []
     | e :: r => e :: rebuilt_from (ts e) (drop 1 deltas) r
     end.
Proof.
  intros Hlen. unfold rebuild, py_range_from. destruct body as [|e r]; [done|].
  replace (Z.to_nat (Z.of_nat (length (e :: r)) - Z.of_nat 1)) with (length r)
    by (simpl; lia).
  apply (rebuild_loop deltas r [] e). simpl in *. lia.
Qed.

Lemma length_gaps (f : T → T) (rest : list T) : ∀ prev, length (gaps f prev rest) = length rest.
Proof. induction rest; intros; simpl; [done|]. by rewrite IHrest. Qed.

Lemma quantize_closed (max_delay : T) body :
  quantize max_delay body =
  Ok match body with
     | [] => []
     | e :: r => e :: rebuilt_from (ts e) (gaps (py_min max_delay) (ts e) (ts <$> r)) r
     end.
Proof.
  unfold quantize, timestamps_of. rewrite deltas_of_closed, bind_Ok.
  rewrite rebuild_closed.
  - by destruct body.
  - destruct body as [|e r]; simpl; [lia|].
    rewrite length_gaps, length_fmap. lia.
Qed.
End Loops.

(** ** renormalize *)

Section Renormalize.
Context {T : Type} `{Num T}.
Implicit Types (body : list (event T)) (e : event T).

Lemma set_ts_same e : set_ts e (ts e) = e.
Proof. by destruct e. Qed.

Lemma renormalize_cons e body :
  renormalize (e :: body) =
  Ok ((λ line, set_ts line (ts line ⊖ ts e)) <$> e :: body).
Proof. reflexivity. Qed.

(** C3.  On an empty stream [renormalize] is not a no-op: reading
    [self.body[0]] raises [IndexError]. *)
Theorem renormalize_empty_raises : renormalize ([] : list (event T)) = Raise IndexError.
Proof. reflexivity. Qed.

(** Whatever the arithmetic: when the first timestamp minus itself is 0
    and subtracting 0 changes none of the shifted timestamps, [renormalize]
    puts the first timestamp at 0, and a second call changes nothing. *)
Lemma renormalize_settles body e0 :
  head body = Some e0 →
  ts e0 ⊖ ts e0 = num_zero →
  Forall (λ e, (ts e ⊖ ts e0) ⊖ num_zero = ts e ⊖ ts e0) body →
  let body' := (λ line, set_ts line (ts line ⊖ ts e0)) <$> body in
  renormalize body = Ok body' ∧
  renormalize body' = Ok body' ∧
  ts <$> head body' = Some num_zero.
Proof.
  destruct body as [|e r]; [done|]. intros [= ->] Hdiag Hzero body'.
  split; [apply renormalize_cons|]. split.
  - unfold body'. set (shift := λ line : event T, set_ts line (ts line ⊖ ts e0)).
    change (renormalize (shift <$> e0 :: r))
      with (Ok ((λ line, set_ts line (ts line ⊖ (ts e0 ⊖ ts e0))) <$> (shift <$> e0 :: r))).
    rewrite Hdiag, <- list_fmap_compose. f_equal.
    apply Forall_fmap_ext_1. eapply Forall_impl; [exact Hzero|].
    intros x Hx. unfold shift, set_ts. cbn. by rewrite Hx.
  - simpl. by rewrite Hdiag.
Qed.

(** With exact arithmetic every gap between neighbours is kept as well:
    the whole of the specification's property holds. *)
Lemma renormalize_idempotent_exact `{!ExactNum T} body :
  body ≠ [] → renormalize_idempotent body.
Proof.
  destruct body as [|e r]; [done|]. intros _.
  eexists. split; [apply renormalize_cons|].
  split; [|split].
  - simpl. unfold renormalize. simpl. rewrite sub_diag. f_equal. f_equal.
    + by rewrite sub_zero_r.
    + rewrite <- list_fmap_compose. apply list_fmap_ext. intros i x _. simpl.
      by rewrite sub_zero_r.
  - simpl. by rewrite sub_diag.
  - intros i a b a' b' Ha Hb Ha' Hb'.
    rewrite list_lookup_fmap, Ha in Ha'. rewrite list_lookup_fmap, Hb in Hb'.
    simpl in *. injection Ha' as <-. injection Hb' as <-. simpl.
    apply sub_sub_cancel.
Qed.
End Renormalize.

(** On the fixture with rational timestamps. *)
Lemma renormalize_idempotent_exact_fixture : renormalize_idempotent fixture_exact.
Proof. apply (renormalize_idempotent_exact fixture_exact). discriminate. Defined.

(** C7, as amended.  On binary64 timestamps, for a stream whose first
    timestamp is finite: [renormalize] returns, a second call returns the
    same stream, the first timestamp is exactly [0.0], and every timestamp
    is the one before the call minus the first one, rounded; kinds and
    payloads stay. *)
Theorem renormalize_twice_finite (body : list (event float)) (e0 : event float) :
  head body = Some e0 →
  is_finite (ts e0) = true →
  ∃ body',
    renormalize body = Ok body' ∧
    renormalize body' = Ok body' ∧
    ts <$> head body' = Some 0%float ∧
    Forall2 (λ e e', ts e' = (ts e - ts e0)%float ∧
                     kind e' = kind e ∧ data e' = data e) body body'.
Proof.
  intros Hhd Hfin.
  destruct (renormalize_settles body e0 Hhd) as (Hr & Hrr & Hz).
  - by apply float_sub_diag.
  - apply Forall_forall. intros e _. apply float_sub_zero_r.
  - eexists. split; [exact Hr|]. split; [exact Hrr|]. split; [exact Hz|].
    by apply Forall2_fmap_r, Forall_Forall2_diag, Forall_forall.
Qed.

(** C7, witness: the stream of the counterexample below. *)
Lemma renormalize_twice_finite_witness :
  let body := [ev 0.1 "o" "a"; ev 1.0 "o" "b"; ev 2.0 "o" "c"] in
  ∃ body',
    renormalize body = Ok body' ∧
    renormalize body' = Ok body' ∧
    ts <$> head body' = Some 0%float ∧
    Forall2 (λ e e', ts e' = (ts e - 0.1)%float ∧
                     kind e' = kind e ∧ data e' = data e) body body'.
Proof.
  intros body.
  apply (renormalize_twice_finite body (ev 0.1 "o" "a")); reflexivity.
Defined.

(** A first timestamp that is not finite is outside the theorem: the first
    call leaves NaN in front, not 0, and the second call changes the rest. *)
Example renormalize_infinite_start :
  renormalize [ev infinity "o" "a"; ev 1.0 "o" "b"]
    = Ok [ev nan "o" "a"; ev neg_infinity "o" "b"] ∧
  renormalize [ev nan "o" "a"; ev neg_infinity "o" "b"]
    = Ok [ev nan "o" "a"; ev nan "o" "b"].
Proof. split; vm_compute; reflexivity. Qed.

(** C7, as stated, fails on binary64 timestamps: after [renormalize] of
    0.1, 1.0, 2.0 the last gap is 0.9999999999999999, not 1.0. *)
Lemma renormalize_gap_rounds :
  renormalize [ev 0.1 "o" "a"; ev 1.0 "o" "b"; ev 2.0 "o" "c"]
    = Ok [ev 0.0 "o" "a"; ev 0.9 "o" "b"; ev 1.9 "o" "c"] ∧
  (2.0 - 1.0 = 1.0)%float ∧
  (1.9 - 0.9 = 0.9999999999999999)%float ∧
  ¬ renormalize_idempotent [ev 0.1 "o" "a"; ev 1.0 "o" "b"; ev 2.0 "o" "c"].
Proof.
  split; [vm_compute; reflexivity|]. split; [vm_compute; reflexivity|].
  split; [vm_compute; reflexivity|].
  intros (body' & Hr & _ & _ & Hgap).
  vm_compute in Hr. injection Hr as <-.
  specialize (Hgap 1 _ _ _ _ eq_refl eq_refl eq_refl eq_refl).
  apply (f_equal (λ g, PrimFloat.eqb g 1%float)) in Hgap.
  vm_compute in Hgap. discriminate.
Qed.

(** ** quantize *)

Section Quantize.
Context {T : Type} `{Num T}.
Implicit Types (body r : list (event T)) (e : event T).

Lemma length_rebuilt_from r : ∀ (prev : T) ds,
  length ds = length r → length (rebuilt_from prev ds r) = length r.
Proof.
  induction r as [|e r IH]; intros prev [|d ds] Hlen; simpl in *; try done.
  by rewrite IH by lia.
Qed.

Lemma rebuilt_neighbours (f : T → T) r : ∀ e e' (i : nat) a b a' b',
  (e :: r) !! i = Some a → (e :: r) !! (S i) = Some b →
  (e' :: rebuilt_from (ts e') (gaps f (ts e) (ts <$> r)) r) !! i = Some a' →
  (e' :: rebuilt_from (ts e') (gaps f (ts e) (ts <$> r)) r) !! (S i) = Some b' →
  ts b' = ts a' ⊕ f (ts b ⊖ ts a) ∧ kind b' = kind b ∧ data b' = data b.
Proof.
  induction r as [|e1 r IH]; intros e e' i a b a' b' Ha Hb Ha' Hb'.
  - by destruct i.
  - destruct i as [|i]; simpl in *.
    + injection Ha as <-. injection Hb as <-. injection Ha' as <-.
      by injection Hb' as <-.
    + by eapply (IH e1 (set_ts e1 (ts e' ⊕ f (ts e1 ⊖ ts e))) i).
Qed.

(** Whatever the arithmetic: [quantize] returns, moves no event and leaves
    kinds and payloads alone; each new timestamp is the new timestamp
    before it plus [min(max_delay, gap)], the gap taken between the
    timestamps as they were before the call. *)
Lemma quantize_recurrence (max_delay : T) body :
  ∃ body', quantize max_delay body = Ok body' ∧
    length body' = length body ∧
    head body' = head body ∧
    ∀ (i : nat) a b a' b',
      body !! i = Some a → body !! (S i) = Some b →
      body' !! i = Some a' → body' !! (S i) = Some b' →
      ts b' = ts a' ⊕ py_min max_delay (ts b ⊖ ts a) ∧
      kind b' = kind b ∧ data b' = data b.
Proof.
  eexists. split; [apply quantize_closed|].
  destruct body as [|e r]; [by split; [|split; [|intros []]]|].
  split; [|split; [done|]].
  - simpl. by rewrite length_rebuilt_from by by rewrite length_gaps, length_fmap.
  - intros i a b a' b'. apply rebuilt_neighbours.
Qed.

Lemma rebuilt_from_frame r : ∀ (prev : T) ds,
  length ds = length r →
  Forall2 (λ e' e, kind e' = kind e ∧ data e' = data e) (rebuilt_from prev ds r) r.
Proof.
  induction r as [|e r IH]; intros prev [|d ds] Hlen; simpl in *; try done.
  constructor; [done|]. apply IH. lia.
Qed.

(** X1.  [quantize] never raises, whatever the stream and the delay, and it
    touches timestamps only: the result has the events of the body, in their
    order, with their kinds and payloads. *)
Theorem quantize_keeps_events (max_delay : T) body :
  ∃ body', quantize max_delay body = Ok body' ∧
    Forall2 (λ e' e, kind e' = kind e ∧ data e' = data e) body' body.
Proof.
  eexists. split; [apply quantize_closed|].
  destruct body as [|e r]; [constructor|].
  constructor; [done|]. apply rebuilt_from_frame.
  by rewrite length_gaps, length_fmap.
Qed.

(** C4, as amended.  When the arithmetic is exact and [<] is a total
    order, [quantize] leaves the first timestamp alone, and every gap of
    the result is at most [max_delay] where the original gap exceeded it and
    the original gap elsewhere. *)
Theorem quantize_bounded_exact `{!ExactNum T} `{!OrderedNum T} (max_delay : T) body :
  quantize_bounded max_delay body.
Proof.
  destruct (quantize_recurrence max_delay body) as (body' & Hq & Hlen & Hhd & Hrec).
  exists body'. do 3 (split; [done|]).
  intros i a b a' b' Ha Hb Ha' Hb'.
  destruct (Hrec i a b a' b' Ha Hb Ha' Hb') as (-> & _ & _).
  rewrite sub_add_cancel. unfold py_min. split; intros Hlt.
  - rewrite (lt_asym _ _ Hlt). apply lt_irrefl.
  - destruct (num_lt (ts b ⊖ ts a) max_delay) eqn:Hlt'; [done|].
    by apply lt_total.
Qed.
End Quantize.

(** C4, witness: the fixture with rational timestamps and the default delay. *)
Lemma quantize_bounded_exact_witness : quantize_bounded (Q2Qc 1) fixture_exact.
Proof. apply (quantize_bounded_exact (Q2Qc 1) fixture_exact). Defined.

(** C4, as stated, fails on binary64 timestamps: the gap from 7.3 to 100.0
    exceeds the delay 1.0, and after [quantize] the gap is
    1.0000000000000009, still above 1.0. *)
Lemma quantize_gap_rounds :
  quantize 1%float [ev 7.3 "o" "a"; ev 100.0 "o" "b"]
    = Ok [ev 7.3 "o" "a"; ev 8.3 "o" "b"] ∧
  (8.3 - 7.3 = 1.0000000000000009)%float ∧
  ¬ quantize_bounded 1%float [ev 7.3 "o" "a"; ev 100.0 "o" "b"].
Proof.
  split; [vm_compute; reflexivity|]. split; [vm_compute; reflexivity|].
  intros (body' & Hq & _ & _ & Hgap).
  vm_compute in Hq. injection Hq as <-.
  destruct (Hgap 0 _ _ _ _ eq_refl eq_refl eq_refl eq_refl) as [Hle _].
  vm_compute in Hle. specialize (Hle eq_refl). discriminate.
Qed.

(** ** bisect_left and parse_ranges_to_indices *)

Section Bisect.
Context {T : Type} `{Num T}.
Implicit Types (a : list T) (x : T).

Lemma mid_bounds (lo hi : nat) : lo < hi → lo ≤ (lo + hi) / 2 < hi.
Proof.
  intros Hlt. split.
  - apply Nat.div_le_lower_bound; lia.
  - apply Nat.Div0.div_lt_upper_bound; lia.
Qed.

(** Once the fuel covers [hi - lo] the loop has left by its own test, and
    more fuel changes nothing. *)
Lemma bisect_loop_fuel a x : ∀ fuel fuel' lo hi,
  hi - lo ≤ fuel → hi - lo ≤ fuel' →
  bisect_loop fuel a x lo hi = bisect_loop fuel' a x lo hi.
Proof.
  induction fuel as [|fuel IH]; intros [|fuel'] lo hi Hf Hf'; cbn [bisect_loop];
    try done; try (case_decide; [lia|done]).
  case_decide as Hlt; [|done].
  destruct (a !! _); [|done].
  pose proof (mid_bounds lo hi Hlt).
  destruct (num_lt _ _); apply IH; lia.
Qed.

Lemma bisect_loop_bounds a x : ∀ fuel lo hi,
  lo ≤ hi → lo ≤ bisect_loop fuel a x lo hi ≤ hi.
Proof.
  induction fuel as [|fuel IH]; intros lo hi Hle; cbn [bisect_loop]; [lia|].
  case_decide as Hlt; [|lia].
  pose proof (mid_bounds lo hi Hlt).
  destruct (a !! _); [|lia].
  destruct (num_lt _ _).
  - specialize (IH ((lo + hi) / 2 + 1) hi). lia.
  - specialize (IH lo ((lo + hi) / 2)). lia.
Qed.

(** The index is a position of the list, sorted or not. *)
Lemma bisect_left_le a x : bisect_left a x ≤ length a.
Proof. unfold bisect_left. pose proof (bisect_loop_bounds a x (length a) 0 (length a)). lia. Qed.

Lemma bisect_loop_insertion_point a x : partitioned a x →
  ∀ fuel lo hi,
    hi - lo ≤ fuel → lo ≤ hi → hi ≤ length a →
    (∀ (j : nat) (y : T), j < lo → a !! j = Some y → num_lt y x = true) →
    (∀ (j : nat) (y : T), hi ≤ j → a !! j = Some y → num_lt y x = false) →
    insertion_point a x (bisect_loop fuel a x lo hi).
Proof.
  intros Hp. induction fuel as [|fuel IH]; intros lo hi Hf Hle Hhi Hlo Hup; cbn [bisect_loop].
  - assert (lo = hi) as -> by lia. by split; [|split].
  - case_decide as Hlt.
    2:{ assert (lo = hi) as -> by lia. by split; [|split]. }
    pose proof (mid_bounds lo hi Hlt) as Hmid.
    destruct (lookup_lt_is_Some_2 a ((lo + hi) / 2)) as [am Ham]; [lia|].
    rewrite Ham. destruct (num_lt am x) eqn:Hcmp.
    + apply IH; try lia; [|done].
      intros j y Hj Hy. by apply (Hp j ((lo + hi) / 2) y am); [lia|..].
    + apply IH; try lia; [done|].
      intros j y Hj Hy. destruct (num_lt y x) eqn:Hyx; [|done].
      rewrite (Hp ((lo + hi) / 2) j am y) in Hcmp; [done|lia|done..].
Qed.

(** On a list partitioned by [x], [bisect_left] is the leftmost insertion
    point of [x]. *)
Lemma bisect_left_partition_point a x :
  partitioned a x → insertion_point a x (bisect_left a x).
Proof.
  intros Hp. apply bisect_loop_insertion_point; try done; try lia.
  intros j y Hj Hy. apply lookup_lt_Some in Hy. lia.
Qed.

Context `{!OrderedNum T}.

Lemma chronological_lookup a : chronological a = true →
  ∀ (i j : nat) (y z : T), i < j → a !! i = Some y → a !! j = Some z → num_lt z y = false.
Proof.
  induction a as [|h a IH]; intros Hs i j y z Hij Hi Hj; [done|].
  simpl in Hs. apply andb_true_iff in Hs as [Hh Hs].
  destruct i as [|i], j as [|j]; simpl in *; try lia.
  - injection Hi as <-. rewrite forallb_forall in Hh.
    apply negb_true_iff, Hh, list_elem_of_In, list_elem_of_lookup. eauto.
  - eapply (IH Hs i j); [lia|done..].
Qed.

(** When [<] is a total order, a sorted list is partitioned by every [x]. *)
Lemma chronological_partitioned a x : chronological a = true → partitioned a x.
Proof.
  intros Hs i j y z Hij Hy Hz Hzx.
  destruct (decide (i = j)) as [->|Hne]; [congruence|].
  destruct (lt_cotrans z y x Hzx) as [Hbad|]; [|done].
  rewrite (chronological_lookup a Hs i j y z) in Hbad; [done|lia|done..].
Qed.

(** On sorted timestamps [bisect_left] is the leftmost insertion point. *)
Lemma bisect_left_insertion_point a x :
  chronological a = true → insertion_point a x (bisect_left a x).
Proof. intros Hs. by apply bisect_left_partition_point, chronological_partitioned. Qed.

(** There is one such point. *)
Lemma insertion_point_unique a x r r' :
  insertion_point a x r → insertion_point a x r' → r = r'.
Proof.
  intros (Hr & Hlo & Hup) (Hr' & Hlo' & Hup').
  destruct (decide (r = r')) as [|Hne]; [done|exfalso].
  destruct (decide (r < r')).
  - destruct (lookup_lt_is_Some_2 a r) as [y Hy]; [lia|].
    specialize (Hup r y). specialize (Hlo' r y). rewrite Hup in Hlo' by (done || lia).
    by discriminate Hlo'.
  - destruct (lookup_lt_is_Some_2 a r') as [y Hy]; [lia|].
    specialize (Hup' r' y). specialize (Hlo r' y). rewrite Hup' in Hlo by (done || lia).
    by discriminate Hlo; [lia|].
Qed.

(** An event whose timestamp equals [x] is at the insertion point or after it. *)
Lemma insertion_point_ties a x r (j : nat) :
  insertion_point a x r → a !! j = Some x → r ≤ j.
Proof.
  intros (_ & Hlo & _) Hj. destruct (decide (j < r)) as [Hlt|]; [|lia].
  specialize (Hlo j x Hlt Hj). by rewrite lt_irrefl in Hlo.
Qed.
End Bisect.

Section Sorting.
Context {A : Type} (key : A → nat).

Lemma insert_by_perm (x : A) l : insert_by key x l ≡ₚ x :: l.
Proof.
  induction l as [|y l IH]; simpl; [done|].
  case_decide; [|done]. rewrite IH. apply Permutation_swap.
Qed.

Lemma py_sorted_perm l : py_sorted key l ≡ₚ l.
Proof.
  induction l as [|x l IH]; simpl; [done|].
  by rewrite insert_by_perm, IH.
Qed.

Lemma insert_by_sorted (x : A) l :
  Sorted (λ a b, key a ≤ key b) l → Sorted (λ a b, key a ≤ key b) (insert_by key x l).
Proof.
  induction 1 as [|y l Hl IH Hhd]; simpl.
  - by repeat constructor.
  - case_decide as Hlt.
    + constructor; [done|].
      destruct Hhd as [|z l' Hz]; simpl.
      * constructor. lia.
      * case_decide; constructor; lia.
    + constructor; [by constructor|]. constructor. lia.
Qed.

Lemma py_sorted_sorted l : Sorted (λ a b, key a ≤ key b) (py_sorted key l).
Proof.
  induction l as [|x l IH]; simpl; [constructor|].
  by apply insert_by_sorted.
Qed.
End Sorting.

Section ParseRanges.
Context {T : Type} `{Num T}.
Implicit Types (body : list (event T)) (ranges : list (T * T)).

Lemma parse_ranges_to_indices_closed ranges body :
  parse_ranges_to_indices ranges body =
  py_sorted fst (resolved_by (timestamps_of body) <$> ranges).
Proof.
  unfold parse_ranges_to_indices. f_equal.
  enough (∀ acc : list (nat * nat),
    foldl (λ idx_ranges '(starttime, endtime),
             let startidx := bisect_left (timestamps_of body) starttime in
             let endidx := bisect_left (timestamps_of body) endtime in
             idx_ranges ++ [(startidx, endidx)]) acc ranges
    = acc ++ (resolved_by (timestamps_of body) <$> ranges)) as Hloop by apply Hloop.
  induction ranges as [|[s e] ranges IH]; intros acc; simpl.
  - by rewrite app_nil_r.
  - by rewrite IH, <- app_assoc.
Qed.

(** Whatever the arithmetic: on timestamps that every bound of a range
    partitions, every range is resolved to the leftmost insertion points of
    its start and of its end, and the resolved ranges come back sorted
    ascending by start index. *)
Lemma parse_ranges_to_indices_partitioned ranges body :
  (∀ x : T, partitioned (timestamps_of body) x) →
  Sorted (λ r r' : nat * nat, r.1 ≤ r'.1) (parse_ranges_to_indices ranges body) ∧
  ∃ resolved : list (nat * nat),
    parse_ranges_to_indices ranges body ≡ₚ resolved ∧
    Forall2 (λ (rng : T * T) (r : nat * nat),
               insertion_point (timestamps_of body) rng.1 r.1 ∧
               insertion_point (timestamps_of body) rng.2 r.2)
            ranges resolved.
Proof.
  intros Hp. rewrite parse_ranges_to_indices_closed. split.
  - apply py_sorted_sorted.
  - exists (resolved_by (timestamps_of body) <$> ranges). split.
    + apply py_sorted_perm.
    + apply Forall2_fmap_r, Forall_Forall2_diag, Forall_forall.
      intros rng _. unfold resolved_by. simpl.
      split; apply bisect_left_partition_point, Hp.
Qed.

(** Timestamps at an insertion point's left are below [x]; where nothing
    that is [x] or compares equal to [x] is below [x], ties sit at the
    point or after it. *)
Lemma insertion_point_ties_from (a : list T) (x : T) (r : nat) :
  num_lt x x = false →
  (∀ y : T, num_eq y x = true → num_lt y x = false) →
  insertion_point a x r → ties_from a x r.
Proof.
  intros Hirr Heq (_ & Hlo & _) j y Hj Hy.
  destruct (decide (j < r)) as [Hlt|]; [|lia].
  specialize (Hlo j y Hlt Hj). destruct Hy as [->|Hy].
  - by rewrite Hirr in Hlo.
  - by rewrite (Heq y Hy) in Hlo.
Qed.

Lemma ascending_lookup (a : list T) : ascending a = true →
  ∀ (i j : nat) (y z : T), i < j → a !! i = Some y → a !! j = Some z → num_le y z = true.
Proof.
  induction a as [|h a IH]; intros Hs i j y z Hij Hi Hj; [done|].
  simpl in Hs. apply andb_true_iff in Hs as [Hh Hs].
  destruct i as [|i], j as [|j]; simpl in *; try lia.
  - injection Hi as <-. rewrite forallb_forall in Hh.
    apply Hh, list_elem_of_In, list_elem_of_lookup. eauto.
  - eapply (IH Hs i j); [lia|done..].
Qed.

(** With a strict total order, on a chronological stream. *)
Lemma parse_ranges_to_indices_resolves_ordered `{!OrderedNum T} ranges body :
  chronological (timestamps_of body) = true →
  Sorted (λ r r' : nat * nat, r.1 ≤ r'.1) (parse_ranges_to_indices ranges body) ∧
  ∃ resolved : list (nat * nat),
    parse_ranges_to_indices ranges body ≡ₚ resolved ∧
    Forall2 (λ (rng : T * T) (r : nat * nat),
               insertion_point (timestamps_of body) rng.1 r.1 ∧
               insertion_point (timestamps_of body) rng.2 r.2 ∧
               (∀ j : nat, timestamps_of body !! j = Some rng.1 → r.1 ≤ j) ∧
               (∀ j : nat, timestamps_of body !! j = Some rng.2 → r.2 ≤ j))
            ranges resolved.
Proof.
  intros Hs. rewrite parse_ranges_to_indices_closed. split.
  - apply py_sorted_sorted.
  - exists (resolved_by (timestamps_of body) <$> ranges). split.
    + apply py_sorted_perm.
    + apply Forall2_fmap_r, Forall_Forall2_diag, Forall_forall.
      intros rng _. unfold resolved_by. simpl.
      pose proof (bisect_left_insertion_point (timestamps_of body) rng.1 Hs).
      pose proof (bisect_left_insertion_point (timestamps_of body) rng.2 Hs).
      split; [done|]. split; [done|].
      split; intros j; by apply insertion_point_ties.
Qed.
End ParseRanges.

(** Three ranges, out of order, on the fixture with rational timestamps. *)
Lemma parse_ranges_to_indices_resolves_ordered_fixture :
  let ranges := [(Q2Qc (7 # 2), Q2Qc 9); (Q2Qc 0, Q2Qc 2); (Q2Qc 2, Q2Qc (31 # 10))] in
  chronological (timestamps_of fixture_exact) = true ∧
  parse_ranges_to_indices ranges fixture_exact = [(0, 1); (1, 3); (5, 6)] ∧
  Sorted (λ r r' : nat * nat, r.1 ≤ r'.1) (parse_ranges_to_indices ranges fixture_exact).
Proof.
  intros ranges. split; [reflexivity|]. split; [reflexivity|].
  apply (parse_ranges_to_indices_resolves_ordered ranges fixture_exact). reflexivity.
Qed.

(** Sorted binary64 timestamps are partitioned by every float. *)
Lemma float_ascending_partitioned (a : list float) (x : float) :
  ascending a = true → partitioned a x.
Proof.
  intros Hs i j y z Hij Hy Hz Hzx.
  destruct (decide (i = j)) as [->|Hne]; [congruence|].
  apply (float_le_lt_trans y z x); [|done].
  apply (ascending_lookup a Hs i j); [lia|done..].
Qed.

(** For floats it is enough that every timestamp is [<=] the next one. *)
Lemma float_ascending_neighbours (a : list float) :
  (∀ (i : nat) (y z : float), a !! i = Some y → a !! (S i) = Some z → num_le y z = true) →
  ascending a = true.
Proof.
  induction a as [|x a IH]; intros Hnext; [done|].
  cbn [ascending]. apply andb_true_iff. split.
  - clear IH. revert x Hnext. induction a as [|y a IH]; intros x Hnext; [done|].
    pose proof (Hnext 0 x y eq_refl eq_refl) as Hxy.
    cbn [forallb]. rewrite Hxy. cbn [andb].
    specialize (IH y (λ i, Hnext (S i))).
    rewrite forallb_forall in IH. apply forallb_forall. intros z Hz.
    by apply (float_le_trans x y z), IH.
  - apply IH. intros i. apply (Hnext (S i)).
Qed.

(** A sorted stream of floats is chronological. *)
Lemma float_ascending_chronological (a : list float) :
  ascending a = true → chronological a = true.
Proof.
  induction a as [|x a IH]; [done|]. cbn [ascending chronological].
  intros [Hhd Hs]%andb_true_iff. rewrite (IH Hs), andb_true_r.
  rewrite forallb_forall in Hhd. apply forallb_forall. intros y Hy.
  by rewrite (float_le_not_gt x y (Hhd y Hy)).
Qed.

(** C8.  On binary64 timestamps sorted in time (every timestamp [<=] every
    later one), for every list of ranges: every range is resolved to the
    leftmost insertion points of its start and of its end (all events before
    the index are below the time, none from the index on is), so an event
    at exactly that time sits at the index or after it.  The resolved ranges
    come back sorted ascending by start index. *)
Theorem parse_ranges_to_indices_resolves
    (ranges : list (float * float)) (body : list (event float)) :
  ascending (timestamps_of body) = true →
  Sorted (λ r r' : nat * nat, r.1 ≤ r'.1) (parse_ranges_to_indices ranges body) ∧
  ∃ resolved : list (nat * nat),
    parse_ranges_to_indices ranges body ≡ₚ resolved ∧
    Forall2 (λ (rng : float * float) (r : nat * nat),
               insertion_point (timestamps_of body) rng.1 r.1 ∧
               insertion_point (timestamps_of body) rng.2 r.2 ∧
               ties_from (timestamps_of body) rng.1 r.1 ∧
               ties_from (timestamps_of body) rng.2 r.2)
            ranges resolved.
Proof.
  intros Hs.
  destruct (parse_ranges_to_indices_partitioned ranges body) as (Hsorted & resolved & Hperm & Hres).
  { intros x. by apply float_ascending_partitioned. }
  split; [done|]. exists resolved. split; [done|].
  eapply Forall2_impl; [exact Hres|].
  intros rng r [H1 H2]. split; [done|]. split; [done|].
  split; (apply insertion_point_ties_from;
          [apply float_lt_irrefl|intros y; apply float_eq_not_lt|done]).
Qed.

(** C8, witness: three ranges, out of order, on the fixture. *)
Lemma parse_ranges_to_indices_resolves_witness :
  let ranges := [(3.5, 9.0); (0.0, 2.0); (2.0, 3.1)]%float in
  ascending (timestamps_of fixture) = true ∧
  parse_ranges_to_indices ranges fixture = [(0, 1); (1, 3); (5, 6)] ∧
  Sorted (λ r r' : nat * nat, r.1 ≤ r'.1) (parse_ranges_to_indices ranges fixture).
Proof.
  intros ranges. split; [reflexivity|]. split; [reflexivity|].
  apply (parse_ranges_to_indices_resolves ranges fixture). reflexivity.
Defined.

(** A stream with NaN in it is not sorted, though no timestamp of it is
    below an earlier one; bisection for 1.5 stops at index 2 with NaN, which
    is not below 1.5, on its left. *)
Example parse_ranges_to_indices_nan :
  let timestamps := [nan; 1.0; 2.0]%float in
  ascending timestamps = false ∧
  chronological timestamps = true ∧
  bisect_left timestamps 1.5%float = 2 ∧
  num_lt nan 1.5%float = false.
Proof. repeat split. Qed.

(** The same ranges on the binary64 fixture. *)
Example parse_ranges_to_indices_fixture :
  parse_ranges_to_indices [(3.5, 9.0); (0.0, 2.0); (2.0, 3.1)]%float fixture
  = [(0, 1); (1, 3); (5, 6)].
Proof. vm_compute. reflexivity. Qed.

(** ** excise *)

Section Excise.
Context {T : Type} `{Num T}.
Implicit Types (body : list (event T)) (rs : list (nat * nat)).

Lemma filter_index_sublist {A} (p : nat → bool) (l : list A) : ∀ i,
  filter_index p i l `sublist_of` l.
Proof.
  induction l as [|x l IH]; intros i; simpl; [constructor|].
  destruct (p i); by constructor.
Qed.

Lemma filter_index_ext {A} (p q : nat → bool) (l : list A) : ∀ i,
  (∀ j, i ≤ j → p j = q j) → filter_index p i l = filter_index q i l.
Proof.
  induction l as [|x l IH]; intros i Hpq; simpl; [done|].
  rewrite (Hpq i) by lia. rewrite (IH (S i)); [done|].
  intros j Hj. apply Hpq. lia.
Qed.

(** Indices kept by [p] from [lo] up to [s] come out as the slice [lo:s]. *)
Lemma filter_index_keep {A} (p : nat → bool) (l : list A) (s : nat) : ∀ lo,
  lo ≤ s → (∀ j, lo ≤ j < s → p j = true) →
  filter_index p lo (drop lo l) = slice lo s l ++ filter_index p s (drop s l).
Proof.
  intros lo Hle. remember (s - lo) as n eqn:Hn.
  revert lo Hle Hn. induction n as [|n IH]; intros lo Hle Hn Hp.
  - assert (lo = s) as -> by lia. unfold slice. by rewrite Nat.sub_diag.
  - unfold slice. rewrite <- Hn.
    destruct (l !! lo) as [x|] eqn:Hx.
    + rewrite (drop_S _ _ _ Hx). simpl. rewrite Hp by lia. f_equal.
      rewrite (IH (S lo)); [|lia..|intros; apply Hp; lia].
      unfold slice. by replace (s - S lo) with n by lia.
    + apply lookup_ge_None in Hx. by rewrite !drop_ge by lia.
Qed.

(** Indices dropped by [p] from [s] up to [e] leave nothing. *)
Lemma filter_index_skip {A} (p : nat → bool) (l : list A) (e : nat) : ∀ s,
  s ≤ e → (∀ j, s ≤ j < e → p j = false) →
  filter_index p s (drop s l) = filter_index p e (drop e l).
Proof.
  intros s Hle. remember (e - s) as n eqn:Hn.
  revert s Hle Hn. induction n as [|n IH]; intros s Hle Hn Hp.
  - by assert (s = e) as -> by lia.
  - destruct (l !! s) as [x|] eqn:Hx.
    + rewrite (drop_S _ _ _ Hx). simpl. rewrite Hp by lia.
      apply IH; [lia..|intros; apply Hp; lia].
    + apply lookup_ge_None in Hx. by rewrite !drop_ge by lia.
Qed.

Lemma outside_cons (s e : nat) rs (j : nat) :
  outside ((s, e) :: rs) j = negb (Nat.leb s j && Nat.ltb j e) && outside rs j.
Proof. reflexivity. Qed.

Lemma outside_before rs : ∀ lo j, ranges_chain lo rs → j < lo → outside rs j = true.
Proof.
  induction rs as [|[s e] rs IH]; intros lo j Hc Hj; [done|].
  destruct Hc as (Hs & He & Hc). rewrite outside_cons.
  rewrite (IH e j Hc) by lia. rewrite andb_true_r.
  apply negb_true_iff, andb_false_iff. left. apply Nat.leb_gt. lia.
Qed.

(** For sorted, non-overlapping ranges the spliced segments are the events
    whose index lies in no range, in their order. *)
Lemma splice_from_filter {A} (body : list A) rs : ∀ lo,
  ranges_chain lo rs →
  splice_from lo rs body = filter_index (outside rs) lo (drop lo body).
Proof.
  induction rs as [|[s e] rs IH]; intros lo Hc; simpl.
  - rewrite (filter_index_keep _ body (lo `max` length body) lo); [|lia|done].
    unfold slice. rewrite (drop_ge body (_ `max` _)) by lia.
    rewrite app_nil_r, take_ge; [done|]. rewrite length_drop. lia.
  - destruct Hc as (Hs & He & Hc).
    rewrite (filter_index_keep _ body s lo); [|done|].
    2:{ intros j Hj. rewrite outside_cons.
        rewrite (outside_before rs e j Hc) by lia. rewrite andb_true_r.
        apply negb_true_iff, andb_false_iff. left. apply Nat.leb_gt. lia. }
    f_equal. rewrite (filter_index_skip _ body e s); [|done|].
    2:{ intros j Hj. rewrite outside_cons.
        apply andb_false_iff. left. apply negb_false_iff, andb_true_iff.
        split; [apply Nat.leb_le|apply Nat.ltb_lt]; lia. }
    rewrite (IH e Hc). apply filter_index_ext.
    intros j Hj. rewrite outside_cons.
    replace (Nat.ltb j e) with false by (symmetry; apply Nat.ltb_ge; lia).
    by rewrite andb_false_r.
Qed.

Lemma excise_loop {A B} (idx_ranges : list (nat * nat)) (body : list A)
    (k : list A → result B) :
  ∀ rest pre r acc,
    idx_ranges = pre ++ r :: rest →
    (new_body ← for_range (seq (length pre) (length rest))
       (λ i new_body,
          this ← getitem idx_ranges i;
          next ← getitem idx_ranges (i + 1);
          Ok (new_body ++ slice this.2 next.1 body)) acc;
     final ← getitem_last idx_ranges;
     k (new_body ++ drop final.2 body))
    = k (acc ++ splice_from r.2 rest body).
Proof.
  induction rest as [|r' rest IH]; intros pre r acc Hidx; simpl.
  - unfold getitem_last. subst idx_ranges. by rewrite last_snoc.
  - rewrite (getitem_Some idx_ranges (length pre) r), bind_Ok.
    2:{ subst idx_ranges. by rewrite list_lookup_middle. }
    rewrite (getitem_Some idx_ranges (length pre + 1) r'), !bind_Ok.
    2:{ subst idx_ranges. rewrite lookup_app_r by lia.
        by replace (length pre + 1 - length pre) with 1 by lia. }
    specialize (IH (pre ++ [r]) r' (acc ++ slice r.2 r'.1 body)).
    rewrite length_app in IH. simpl in IH.
    replace (length pre + 1) with (S (length pre)) in IH by lia.
    rewrite IH, <- app_assoc; [done|].
    subst idx_ranges. by rewrite <- app_assoc.
Qed.

(** [refs] read through [heap] gives [vals]. *)
Lemma read_refs_Ok (heap : list (event T)) (refs : list nat) (vals : list (event T)) :
  Forall2 (λ ref v, heap !! ref = Some v) refs vals → read_refs heap refs = Ok vals.
Proof.
  induction 1 as [|ref v refs vals Hv _ IH]; simpl; [done|].
  by rewrite (getitem_Some _ _ _ Hv), bind_Ok, IH.
Qed.

(** A write through a reference that is in the body once changes the entry
    at its position and no other. *)
Lemma refs_insert (heap : list (event T)) (refs : list nat) (vals : list (event T))
    (i ref : nat) (v : event T) :
  NoDup refs →
  Forall2 (λ ref v, heap !! ref = Some v) refs vals →
  refs !! i = Some ref →
  Forall2 (λ ref' v', <[ref := v]> heap !! ref' = Some v') refs (<[i := v]> vals).
Proof.
  intros Hnd Hread Hi.
  apply Forall2_same_length_lookup in Hread as [Hlen Hread].
  apply Forall2_same_length_lookup. split; [by rewrite length_insert|].
  intros j ref' v' Hj Hv'.
  destruct (decide (j = i)) as [->|Hne].
  - assert (ref' = ref) as -> by congruence.
    destruct (lookup_lt_is_Some_2 vals i) as [w Hw];
      [rewrite <- Hlen; by eapply lookup_lt_Some|].
    rewrite list_lookup_insert_eq in Hv' by (by eapply lookup_lt_Some).
    injection Hv' as <-.
    apply list_lookup_insert_eq. eapply lookup_lt_Some. by apply (Hread i ref w).
  - rewrite list_lookup_insert_ne in Hv' by done.
    rewrite list_lookup_insert_ne; [by apply (Hread j)|].
    intros <-. apply Hne. by eapply (NoDup_lookup refs).
Qed.

Lemma renormalize_refs_loop (c : T) : ∀ (todo : list nat) (heap vals : list (event T)),
  NoDup todo →
  Forall2 (λ ref v, heap !! ref = Some v) todo vals →
  ∃ heap',
    for_range todo
      (λ ref heap,
         line ← getitem heap ref;
         Ok (<[ref := set_ts line (ts line ⊖ c)]> heap)) heap = Ok heap' ∧
    Forall2 (λ ref v, heap' !! ref = Some v) todo
            ((λ line, set_ts line (ts line ⊖ c)) <$> vals) ∧
    ∀ ref : nat, ref ∉ todo → heap' !! ref = heap !! ref.
Proof.
  induction todo as [|ref todo IH]; intros heap vals Hnd Hread.
  - apply Forall2_nil_inv_l in Hread as ->. exists heap. split; [done|]. split; [constructor|done].
  - apply Forall2_cons_inv_l in Hread as (v & vs & Hv & Hread & ->).
    apply NoDup_cons in Hnd as [Hnotin Hnd].
    cbn [for_range]. rewrite (getitem_Some _ _ _ Hv), !bind_Ok.
    destruct (IH (<[ref := set_ts v (ts v ⊖ c)]> heap) vs Hnd) as (heap' & Hrun & Hrest & Hframe).
    { apply Forall2_same_length_lookup in Hread as [Hlen Hread].
      apply Forall2_same_length_lookup. split; [done|].
      intros j ref' v' Hj Hv'. rewrite list_lookup_insert_ne; [by apply (Hread j)|].
      intros <-. apply Hnotin. by eapply list_elem_of_lookup_2. }
    exists heap'. split; [done|]. split.
    + rewrite fmap_cons. constructor; [|done].
      rewrite (Hframe ref Hnotin). apply list_lookup_insert_eq.
      by eapply lookup_lt_Some.
    + intros ref' Hnot. apply not_elem_of_cons in Hnot as [Hne Hnot].
      rewrite (Hframe ref' Hnot). by apply list_lookup_insert_ne.
Qed.

Lemma rebuild_refs_loop (deltas : list T) (refs : list nat) :
  NoDup refs →
  ∀ (idxs : list nat) (heap vals vals' : list (event T)),
    Forall2 (λ ref v, heap !! ref = Some v) refs vals →
    for_range idxs
      (λ idx body,
         prev ← getitem body (idx - 1);
         d ← getitem deltas idx;
         e ← getitem body idx;
         Ok (<[idx := set_ts e (ts prev ⊕ d)]> body)) vals = Ok vals' →
    ∃ heap',
      for_range idxs
        (λ idx heap,
           ref_prev ← getitem refs (idx - 1);
           prev ← getitem heap ref_prev;
           d ← getitem deltas idx;
           ref ← getitem refs idx;
           e ← getitem heap ref;
           Ok (<[ref := set_ts e (ts prev ⊕ d)]> heap)) heap = Ok heap' ∧
      Forall2 (λ ref v, heap' !! ref = Some v) refs vals'.
Proof.
  intros Hnd. induction idxs as [|idx idxs IH]; intros heap vals vals' Hread Hrun.
  - injection Hrun as <-. by exists heap.
  - cbn [for_range] in *.
    destruct (getitem vals (idx - 1)) as [prev|] eqn:Hprev; [|done].
    destruct (getitem deltas idx) as [d|] eqn:Hd; [|done].
    destruct (getitem vals idx) as [e|] eqn:He; [|done].
    rewrite !bind_Ok in Hrun.
    apply getitem_Ok in Hprev, He.
    destruct (Forall2_lookup_r _ _ _ _ _ Hread Hprev) as (ref_prev & Hrp & Hhp).
    destruct (Forall2_lookup_r _ _ _ _ _ Hread He) as (ref & Hr & Hh).
    rewrite (getitem_Some _ _ _ Hrp), bind_Ok, (getitem_Some _ _ _ Hhp), bind_Ok.
    rewrite bind_Ok, (getitem_Some _ _ _ Hr), bind_Ok, (getitem_Some _ _ _ Hh), bind_Ok.
    apply (IH _ (<[idx := set_ts e (ts prev ⊕ d)]> vals)); [|done].
    by apply refs_insert.
Qed.

(** On a body without shared events the methods on references do what
    [renormalize] and [quantize] do on the values. *)
Lemma refs_as_values (max_delay : T) (refs : list nat) (heap vals : list (event T)) :
  NoDup refs →
  Forall2 (λ ref v, heap !! ref = Some v) refs vals →
  (heap ← renormalize_refs refs heap;
   heap ← quantize_refs max_delay refs heap;
   read_refs heap refs)
  = (new_body ← renormalize vals; quantize max_delay new_body).
Proof.
  intros Hnd Hread. destruct Hread as [|ref0 e0 refs vals Hv Hread]; [done|].
  unfold renormalize_refs. change (getitem (ref0 :: refs) 0) with (Ok ref0).
  rewrite bind_Ok, (getitem_Some _ _ _ Hv), bind_Ok.
  destruct (renormalize_refs_loop (ts e0) (ref0 :: refs) heap (e0 :: vals) Hnd)
    as (heap1 & -> & Hread1 & _); [by constructor|].
  rewrite bind_Ok, renormalize_cons, bind_Ok.
  set (shifted := (λ line, set_ts line (ts line ⊖ ts e0)) <$> e0 :: vals) in *.
  unfold quantize_refs, quantize.
  rewrite (read_refs_Ok _ _ _ Hread1), bind_Ok.
  unfold timestamps_of. rewrite deltas_of_closed, !bind_Ok.
  set (deltas := num_zero :: _).
  pose proof (Forall2_length _ _ _ Hread1) as Hlen.
  assert (length shifted ≤ length deltas) as Hdeltas.
  { unfold deltas, shifted. rewrite !fmap_cons. cbn [length].
    rewrite length_gaps, !length_fmap. lia. }
  pose proof (rebuild_closed deltas shifted Hdeltas) as Hrebuild.
  unfold rebuild in Hrebuild |- *. rewrite Hrebuild. rewrite Hlen.
  destruct (rebuild_refs_loop deltas (ref0 :: refs) Hnd _ heap1 shifted _ Hread1 Hrebuild)
    as (heap2 & -> & Hread2).
  rewrite bind_Ok. by apply read_refs_Ok.
Qed.

Lemma objects_read (body : list (event T)) :
  Forall2 (λ ref v, body !! ref = Some v) (seq 0 (length body)) body.
Proof.
  apply Forall2_same_length_lookup. split; [by rewrite length_seq|].
  intros i ref v Hi Hv. apply lookup_seq in Hi as [-> _]. done.
Qed.

Lemma splice_from_read body rs : ∀ lo,
  Forall2 (λ ref v, body !! ref = Some v)
          (splice_from lo rs (seq 0 (length body))) (splice_from lo rs body).
Proof.
  pose proof (objects_read body) as Hall.
  induction rs as [|r rs IH]; intros lo; cbn [splice_from].
  - by apply Forall2_drop.
  - apply Forall2_app; [|apply IH]. unfold slice. by apply Forall2_take, Forall2_drop.
Qed.

(** As long as no event is in the new body twice, [excise] is [renormalize]
    and [quantize] on the spliced values. *)
Lemma excise_values ranges body :
  ranges ≠ [] →
  NoDup (splice_from 0 (parse_ranges_to_indices ranges body) (seq 0 (length body))) →
  excise ranges body =
  (new_body ← renormalize (splice_from 0 (parse_ranges_to_indices ranges body) body);
   quantize num_one new_body).
Proof.
  intros Hne Hnd. unfold excise.
  destruct (parse_ranges_to_indices ranges body) as [|r rest] eqn:Hidx.
  { pose proof (parse_ranges_to_indices_closed ranges body) as Hc.
    rewrite Hidx in Hc. apply (f_equal length) in Hc.
    rewrite (Permutation_length (py_sorted_perm _ _)), length_fmap in Hc.
    by destruct ranges. }
  change (getitem (r :: rest) 0) with (Ok r). rewrite bind_Ok.
  replace (py_range (Z.of_nat (length (r :: rest)) - 1)) with (seq (length (@nil (nat * nat))) (length rest))
    by (unfold py_range; simpl; f_equal; lia).
  rewrite (excise_loop (r :: rest) (seq 0 (length body))
             (λ nb, heap ← renormalize_refs nb body;
                    heap ← quantize_refs num_one nb heap;
                    read_refs heap nb) rest [] r) by done.
  apply (refs_as_values num_one _ body (splice_from 0 (r :: rest) body)); [done|].
  exact (splice_from_read body (r :: rest) 0).
Qed.

Lemma excise_closed ranges body :
  ranges ≠ [] →
  ranges_chain 0 (parse_ranges_to_indices ranges body) →
  excise ranges body =
  (new_body ← renormalize (splice_from 0 (parse_ranges_to_indices ranges body) body);
   quantize num_one new_body).
Proof.
  intros Hne Hc. apply excise_values; [done|].
  rewrite (splice_from_filter _ _ 0 Hc).
  rewrite drop_0.
  pose proof (filter_index_sublist
                (outside (parse_ranges_to_indices ranges body))
                (seq 0 (length body)) 0) as Hsub.
  pose proof (NoDup_seq 0 (length body)) as Hall.
  revert Hall Hsub. apply sublist_NoDup.
Qed.

(** C5.  For a non-empty list of ranges that resolve to sorted,
    non-overlapping index ranges, [excise] builds the body out of the events
    before the first start, between each end and the next start, and from
    the last end on; these are exactly the events whose index lies in no
    resolved range, in their original order; [renormalize] and
    [quantize] with the default delay are then applied to that body. *)
Theorem excise_splices ranges body :
  ranges ≠ [] →
  ranges_chain 0 (parse_ranges_to_indices ranges body) →
  let idx_ranges := parse_ranges_to_indices ranges body in
  let kept := splice_from 0 idx_ranges body in
  excise ranges body = (new_body ← renormalize kept; quantize num_one new_body) ∧
  kept = filter_index (outside idx_ranges) 0 body ∧
  kept `sublist_of` body.
Proof.
  intros Hne Hc idx_ranges kept. split; [by apply excise_closed|].
  assert (kept = filter_index (outside idx_ranges) 0 body) as ->
    by by apply splice_from_filter.
  split; [done|]. apply filter_index_sublist.
Qed.
End Excise.

(** C5, witness: two ranges cut out of the fixture. *)
Lemma excise_splices_witness :
  let ranges := [(1.5, 2.5); (3.05, 3.5)]%float in
  parse_ranges_to_indices ranges fixture = [(1, 2); (3, 5)] ∧
  splice_from 0 (parse_ranges_to_indices ranges fixture) fixture
    = [ev 1.0 "o" "one"; ev 3.0 "i" "d"; ev 4.0 "o" "three"] ∧
  excise ranges fixture =
    (new_body ← renormalize (splice_from 0 (parse_ranges_to_indices ranges fixture) fixture);
     quantize num_one new_body).
Proof.
  intros ranges. split; [reflexivity|]. split; [reflexivity|].
  apply (excise_splices ranges fixture).
  - discriminate.
  - vm_compute. lia.
Defined.

(** A range whose end resolves below its start: [(6, 1)] on the timestamps
    2, 5, 7 resolves to the index range [(2, 0)], and the new body
    [body[:2] + body[0:]] holds the first two events twice.  [renormalize]
    shifts them twice and [quantize] writes each of them twice; the stream
    that comes back starts at -4 and is not chronological. *)
Example excise_shared_events :
  excise [(Q2Qc 6, Q2Qc 1)] [qev 2 1 "o" "a"; qev 5 1 "o" "b"; qev 7 1 "o" "c"]
  = Ok [qev (-4) 1 "o" "a"; qev (-3) 1 "o" "b"; qev (-4) 1 "o" "a";
        qev (-3) 1 "o" "b"; qev (-2) 1 "o" "c"].
Proof. by vm_compute. Qed.

(** ** speed *)

Section Speed.
Context {T : Type} `{Num T}.
Implicit Types (body : list (event T)).

Lemma slice_assign_same {A} (s e : nat) (l : list A) :
  slice_assign s e (slice s e l) l = l.
Proof.
  unfold slice_assign, slice. destruct (decide (e ≤ s)) as [Hle|Hlt].
  - replace (e - s) with 0 by lia. replace (s `max` e) with s by lia.
    simpl. apply take_drop.
  - replace (s `max` e) with (s + (e - s)) by lia.
    by rewrite <- drop_drop, take_drop, take_drop.
Qed.

(** A factor under which no delta moves scales nothing, whatever the ranges. *)
Lemma scale_by_unit (speedup : T) (idx_ranges : list (nat * nat)) :
  (∀ d : T, d ⊗ speedup = d) →
  ∀ deltas : list T, foldl (scale_range speedup) deltas idx_ranges = deltas.
Proof.
  intros Hunit. induction idx_ranges as [|[s e] rs IH]; intros deltas; simpl; [done|].
  rewrite (list_fmap_ext _ id (slice s e deltas)) by (intros; apply Hunit).
  by rewrite list_fmap_id, slice_assign_same.
Qed.

(** Whatever the arithmetic, as long as 1 is not 0, 1 / 1 is 1 and
    [d * 1] is [d]: [speed] with factor 1 returns, and what it returns is
    the running sum of the gaps as they were. *)
Lemma speed_factor_one_closed ranges body :
  num_eq (num_one : T) num_zero = false →
  (num_one ⊘ num_one : T) = num_one →
  (∀ d : T, d ⊗ num_one = d) →
  speed ranges num_one body =
  Ok match body with
     | [] => []
     | e :: r => e :: rebuilt_from (ts e) (gaps id (ts e) (ts <$> r)) r
     end.
Proof.
  intros Hne Hdiv Hmul. unfold speed, py_div. rewrite Hne, Hdiv, bind_Ok.
  unfold timestamps_of. rewrite deltas_of_closed, bind_Ok.
  rewrite (scale_by_unit _ _ Hmul), rebuild_closed.
  - by destruct body as [|e r].
  - destruct body as [|e r]; simpl; [lia|]. rewrite length_gaps, length_fmap. lia.
Qed.

(** Where every sum [a + (b - a)] of neighbours gives [b] back, the running
    sum of the gaps is the stream itself. *)
Lemma rebuilt_from_own_gaps_back (r : list (event T)) : ∀ e : event T,
  (∀ (i : nat) a b, (e :: r) !! i = Some a → (e :: r) !! (S i) = Some b →
                    ts a ⊕ (ts b ⊖ ts a) = ts b) →
  rebuilt_from (ts e) (gaps id (ts e) (ts <$> r)) r = r.
Proof.
  induction r as [|e1 r IH]; intros e Hback; simpl; [done|].
  rewrite (Hback 0 e e1 eq_refl eq_refl), set_ts_same. f_equal.
  apply IH. intros i a b Ha Hb. by apply (Hback (S i)).
Qed.

Context `{!ExactNum T}.

Lemma scale_by_one (deltas : list T) (idx_ranges : list (nat * nat)) :
  foldl (scale_range num_one) deltas idx_ranges = deltas.
Proof. apply scale_by_unit, mul_one_r. Qed.

Lemma rebuilt_from_own_gaps (r : list (event T)) : ∀ prev : T,
  rebuilt_from prev (gaps id prev (ts <$> r)) r = r.
Proof.
  induction r as [|e r IH]; intros prev; simpl; [done|].
  rewrite add_sub_cancel, set_ts_same. by rewrite IH.
Qed.

(** With exact arithmetic [speed] with factor 1 returns the stream as it
    was, for any ranges. *)
Lemma speed_factor_one_exact ranges body : speed ranges num_one body = Ok body.
Proof.
  rewrite speed_factor_one_closed.
  - destruct body as [|e r]; [done|]. by rewrite rebuilt_from_own_gaps.
  - apply one_ne_zero.
  - apply div_one_one.
  - apply mul_one_r.
Qed.
End Speed.

(** On the fixture with rational timestamps, one range. *)
Lemma speed_factor_one_exact_fixture :
  speed [(Q2Qc (5 # 2), Q2Qc (7 # 2))] (Q2Qc 1) fixture_exact = Ok fixture_exact.
Proof. exact (speed_factor_one_exact [(Q2Qc (5 # 2), Q2Qc (7 # 2))] fixture_exact). Qed.

(** C6, as amended.  On binary64 timestamps [speed] with factor 1.0
    returns for every stream and every list of ranges; it keeps the first
    event, the kinds and the payloads, and every later timestamp is the new
    timestamp before it plus the gap as it was before the call, each
    operation rounded.  The stream comes back as it was whenever every such
    sum [a + (b - a)] gives [b] back. *)
Theorem speed_factor_one (ranges : list (float * float)) (body : list (event float)) :
  ∃ body',
    speed ranges 1%float body = Ok body' ∧
    length body' = length body ∧
    head body' = head body ∧
    (∀ (i : nat) a b a' b',
       body !! i = Some a → body !! (S i) = Some b →
       body' !! i = Some a' → body' !! (S i) = Some b' →
       ts b' = (ts a' + (ts b - ts a))%float ∧ kind b' = kind b ∧ data b' = data b) ∧
    ((∀ (i : nat) a b,
        body !! i = Some a → body !! (S i) = Some b →
        (ts a + (ts b - ts a))%float = ts b) →
     body' = body).
Proof.
  eexists. split.
  { exact (speed_factor_one_closed ranges body eq_refl eq_refl float_mul_one_r). }
  destruct body as [|e r].
  { split; [done|]. split; [done|]. split; [by intros []|done]. }
  split; [|split; [done|split]].
  - simpl. by rewrite length_rebuilt_from by by rewrite length_gaps, length_fmap.
  - intros i a b a' b' Ha Hb Ha' Hb'.
    exact (rebuilt_neighbours id r e e i a b a' b' Ha Hb Ha' Hb').
  - intros Hback. f_equal. by apply rebuilt_from_own_gaps_back.
Qed.

(** C6, as stated, fails on binary64 timestamps.  From 0.2 and 0.9 the
    sum 0.2 + (0.9 - 0.2) is 0.8999999999999999, so the second timestamp
    moves; after an infinite timestamp the gap inf - inf is NaN, and the
    timestamp that follows becomes NaN, which is no rounding of what it
    was. *)
Lemma speed_factor_one_moves :
  speed [] 1%float [ev 0.2 "o" "a"; ev 0.9 "o" "b"]
    = Ok [ev 0.2 "o" "a"; ev 0.8999999999999999 "o" "b"] ∧
  speed [] 1%float [ev 0.2 "o" "a"; ev 0.9 "o" "b"]
    ≠ Ok [ev 0.2 "o" "a"; ev 0.9 "o" "b"] ∧
  speed [] 1%float [ev 1.0 "o" "a"; ev infinity "o" "b"; ev infinity "o" "c"]
    = Ok [ev 1.0 "o" "a"; ev infinity "o" "b"; ev nan "o" "c"] ∧
  speed [] 1%float [ev 1.0 "o" "a"; ev infinity "o" "b"; ev infinity "o" "c"]
    ≠ Ok [ev 1.0 "o" "a"; ev infinity "o" "b"; ev infinity "o" "c"].
Proof.
  split; [vm_compute; reflexivity|]. split.
  - intros Heq.
    apply (f_equal (λ out, match out with
                           | Ok [_; e] => PrimFloat.eqb (ts e) 0.9
                           | _ => false
                           end)) in Heq.
    vm_compute in Heq. discriminate.
  - split; [vm_compute; reflexivity|]. intros Heq.
    apply (f_equal (λ out, match out with
                           | Ok [_; _; e] => PrimFloat.eqb (ts e) infinity
                           | _ => false
                           end)) in Heq.
    vm_compute in Heq. discriminate.
Qed.

(** On the binary64 fixture the sums happen to round back to the same values. *)
Example speed_factor_one_fixture :
  speed [(2.5, 3.5)%float] 1%float fixture = Ok fixture.
Proof. vm_compute. reflexivity. Qed.

(** ** keep *)

Section Keep.
Context {T : Type} `{Num T}.
Implicit Types (body : list (event T)) (ranges : list (T * T)).

(** C2.  [keep] never gets past its assertion: [len(ranges == 1)] takes
    the length of a bool and raises [TypeError], whatever the range and the
    stream; nothing is kept, renormalized or quantized. *)
Theorem keep_raises_TypeError ranges body : keep ranges body = Raise TypeError.
Proof. reflexivity. Qed.

(** The statements below the assertion do what the specification describes: the
    slice from the start index through the end index, then [renormalize],
    then [quantize] with the default delay. *)
Lemma keep_after_assert_slice (starttime endtime : T) body :
  keep_after_assert [(starttime, endtime)] body =
  (kept ← renormalize
     (slice (bisect_left (timestamps_of body) starttime)
            (bisect_left (timestamps_of body) endtime + 1) body);
   quantize num_one kept).
Proof. reflexivity. Qed.

Lemma slice_lookup_last {A} (l : list A) (s e : nat) (x : A) :
  s ≤ e → l !! e = Some x → slice s (e + 1) l !! (e - s) = Some x.
Proof.
  intros Hle Hx. unfold slice. rewrite lookup_take_lt by lia.
  rewrite lookup_drop. by replace (s + (e - s)) with e by lia.
Qed.
End Keep.

Example keep_fixture_raises : keep [(2.0, 3.1)%float] fixture = Raise TypeError.
Proof. reflexivity. Qed.

Example keep_after_assert_fixture :
  keep_after_assert [(2.0, 3.1)%float] fixture =
  Ok [ev 0.0 "o" "two"; ev 1.0 "i" "d"; ev 1.1 "i" "e"].
Proof. vm_compute. reflexivity. Qed.

(** ** write *)

Section WriteFrame.
Context {T : Type} `{Num T}.
Variable round7 : T → T.
Variable json_dumps : event T → string.

(** C10.  [write] is not read-only.  Whatever slice is written, afterwards
    every event of the body, inside the slice or not, has its timestamp
    rounded and its kind and payload as before; the body has the same
    length, and the header and the output name are untouched.  The text
    written is the header line and the slice of the rounded body. *)
Theorem write_rounds_whole_body (startidx : nat) (endidx : option nat) (r : recording T) :
  let r' := (write round7 json_dumps startidx endidx r).1 in
  header r' = header r ∧
  outfname r' = outfname r ∧
  length (body r') = length (body r) ∧
  (∀ (i : nat) (e : event T), body r !! i = Some e →
     ∃ e', body r' !! i = Some e' ∧
           ts e' = round7 (ts e) ∧ kind e' = kind e ∧ data e' = data e) ∧
  (write round7 json_dumps startidx endidx r).2 =
    header r +:+ newline +:+
    py_join newline
      (json_dumps <$>
         slice startidx
           (match endidx with None | Some O => length (body r) | Some n => n end)
           (body r')).
Proof.
  simpl. split; [done|]. split; [done|].
  split; [by rewrite length_fmap|]. split; [|done].
  intros i e Hi. eexists. rewrite list_lookup_fmap, Hi. by simpl.
Qed.
End WriteFrame.

(** ** del_in_word *)

Section DelInWord.
Context {T : Type} `{Num T}.
Variable isalnum_char : ascii → bool.
Implicit Types (body front tail : list (event T)) (e : event T) (word : string).

Lemma string_length_app (s1 s2 : string) :
  String.length (s1 +:+ s2) = String.length s1 + String.length s2.
Proof. induction s1 as [|c s1 IH]; simpl; [done|]. by rewrite IH. Qed.

Lemma del_repeat_closed (n word_start : nat) : ∀ body,
  word_start + n ≤ length body →
  del_repeat n word_start body = Ok (take word_start body ++ drop (word_start + n) body).
Proof.
  induction n as [|n IH]; intros body Hlen; simpl.
  - by rewrite Nat.add_0_r, take_drop.
  - case_decide; [|lia].
    rewrite IH by (rewrite length_delete by (apply lookup_lt_is_Some_2; lia); lia).
    rewrite delete_take_drop.
    assert (length (take word_start body) = word_start) as Htake
      by (rewrite length_take; lia).
    rewrite take_app_le, take_take by lia.
    rewrite drop_app_ge by lia.
    rewrite Htake, drop_drop.
    replace (word_start `min` word_start) with word_start by lia.
    by replace (S word_start + (word_start + n - word_start))
      with (word_start + S n) by lia.
Qed.

Lemma del_repeat_shrinks (n word_start : nat) : ∀ body body',
  del_repeat n word_start body = Ok body' → length body' ≤ length body.
Proof.
  induction n as [|n IH]; intros body body'; simpl.
  - by intros [= ->].
  - case_decide; [|done]. intros Hd%IH.
    rewrite length_delete in Hd by (by apply lookup_lt_is_Some_2). lia.
Qed.

(** The loop ends: the iterator's index grows and the list never does, so
    fuel above [length body - i] is never used up. *)
Lemma del_loop_total (to_delete : string) : ∀ fuel i body word word_start,
  length body - i < fuel →
  ∃ outcome, del_loop isalnum_char fuel to_delete i body word word_start = Some outcome.
Proof.
  induction fuel as [|fuel IH]; intros i body word word_start Hfuel; [lia|].
  simpl. destruct (body !! i) as [e|] eqn:He; [|by eexists].
  apply lookup_lt_Some in He.
  destruct (_ && _).
  { apply IH. lia. }
  destruct (negb _); [|apply IH; lia].
  destruct (String.eqb word to_delete); [|apply IH; lia].
  destruct word_start as [ws|]; [|by eexists].
  destruct (del_repeat _ _ _) as [body'|err] eqn:Hdel; [|by eexists].
  apply del_repeat_shrinks in Hdel. apply IH. lia.
Qed.

(** X2.  [del_in_word] ends on every stream, with the body afterwards or
    with an exception. *)
Theorem del_in_word_total (to_delete : string) body :
  ∃ outcome, del_in_word isalnum_char to_delete body = Some outcome.
Proof. apply del_loop_total. lia. Qed.

(** While every alphanumeric input event scanned so far carries one
    character, a deletion removes the events of the word just closed and
    nothing behind the closing event; an open word at the end stays. *)
Lemma del_loop_keeps_tail (to_delete : string) tail :
  Forall (λ e, word_event isalnum_char e = true) tail →
  ∀ fuel i front word word_start,
    length (front ++ tail) - i < fuel →
    Forall (λ e, word_event isalnum_char e = true → String.length (data e) = 1) front →
    (word ≠ "" → ∃ w, word_start = Some w ∧
                      (i ≤ length front → w + String.length word = i)) →
    ∃ front', del_loop isalnum_char fuel to_delete i (front ++ tail) word word_start
              = Some (Ok (front' ++ tail)).
Proof.
  intros Htail. induction fuel as [|fuel IH];
    intros i front word word_start Hfuel Hone Hword; [lia|].
  cbn [del_loop]. destruct ((front ++ tail) !! i) as [e|] eqn:He; [|by eexists].
  pose proof (lookup_lt_Some _ _ _ He) as Hi.
  change (String.eqb (kind e) "i" && isalnum isalnum_char (data e))
    with (word_event isalnum_char e).
  destruct (word_event isalnum_char e) eqn:Hev.
  - apply IH; [lia|done|]. intros _.
    assert (i + 1 ≤ length front → String.length (data e) = 1) as Hc.
    { intros Hin. rewrite lookup_app_l in He by lia.
      by eapply (Forall_lookup_1 _ _ _ _ Hone He). }
    destruct (String.eqb_spec word "") as [->|Hne].
    + exists i. split; [done|]. intros Hin.
      rewrite string_length_app. specialize (Hc ltac:(lia)). simpl. lia.
    + destruct (Hword Hne) as (w & -> & Hw). exists w. split; [done|].
      intros Hin. rewrite string_length_app. specialize (Hc ltac:(lia)). lia.
  - assert (i < length front) as Hfront.
    { destruct (decide (i < length front)); [done|].
      rewrite lookup_app_r in He by lia.
      rewrite (Forall_lookup_1 _ _ _ _ Htail He) in Hev. done. }
    destruct (String.eqb_spec word "") as [->|Hne]; simpl.
    { apply IH; [lia|done|done]. }
    destruct (String.eqb word to_delete).
    2:{ apply IH; [lia|done|done]. }
    destruct (Hword Hne) as (w & -> & Hw). specialize (Hw ltac:(lia)).
    rewrite del_repeat_closed by lia. rewrite Hw.
    rewrite take_app_le, drop_app_le by lia. rewrite app_assoc.
    apply IH; [|by apply Forall_app; split;
                    [apply Forall_take|apply Forall_drop]|done].
    rewrite !length_app, length_take, length_drop in *. lia.
Qed.

(** X3.  When every alphanumeric input event before the open word carries
    one character, [del_in_word] returns with the open word still at the end. *)
Lemma del_in_word_keeps_open_word (to_delete : string) front tail :
  Forall (λ e, word_event isalnum_char e = true) tail →
  Forall (λ e, word_event isalnum_char e = true → String.length (data e) = 1) front →
  ∃ front', del_in_word isalnum_char to_delete (front ++ tail) = Some (Ok (front' ++ tail)).
Proof.
  intros Htail Hone. apply del_loop_keeps_tail; [done|lia|done|done].
Qed.
End DelInWord.

(** X3, witness: a closed word and an open one on the fixture; the open one
    stays. *)
Lemma del_in_word_keeps_open_word_witness :
  let tail := [ev 5.0 "i" "d"; ev 5.1 "i" "e"; ev 5.2 "i" "l"] in
  ∃ front', del_in_word ascii_isalnum "del" (fixture ++ tail) = Some (Ok (front' ++ tail)).
Proof.
  intros tail. apply (del_in_word_keeps_open_word ascii_isalnum "del" fixture tail).
  - repeat constructor.
  - repeat (constructor; [by vm_compute|]). constructor.
Defined.

(** The test of the repository: the word is deleted and "three" moves to
    index 2. *)
Example test_delete_word :
  del_in_word ascii_isalnum "del" fixture =
  Some (Ok [ev 1.0 "o" "one"; ev 2.0 "o" "two"; ev 4.0 "o" "three"]).
Proof. vm_compute. reflexivity. Qed.

(** C1.  The word typed twice: deleting the first occurrence shifts the list
    under the iterator, the three events after the closing return key are
    never looked at, and the second occurrence, a run of its own closed by a
    return key and equal to the target, stays in the stream. *)
Theorem del_in_word_misses_second_word :
  word_event ascii_isalnum <$> typed_twice
    = [true; true; true; false; true; true; true; false] ∧
  data <$> slice 4 7 typed_twice = ["d"; "e"; "l"] ∧
  del_in_word ascii_isalnum "del" typed_twice = Some (Ok (drop 3 typed_twice)) ∧
  data <$> drop 3 typed_twice = [carriage_return; "d"; "e"; "l"; carriage_return].
Proof. repeat split; vm_compute; reflexivity. Qed.

(** C9.  A word pasted as one event: the deletion counts the characters of
    the word, not its events, and removes the closing event and the open word
    typed at the end of the stream as well. *)
Theorem del_in_word_deletes_open_word :
  word_event ascii_isalnum <$> pasted_word = [true; false; true] ∧
  del_in_word ascii_isalnum "abc" pasted_word = Some (Ok []).
Proof. split; vm_compute; reflexivity. Qed.

(** ** More of del_in_word *)

Section DelInWordFrame.
Context {T : Type} `{Num T}.
Variable isalnum_char : ascii → bool.
Implicit Types (body : list (event T)) (e : event T) (word : string).

Lemma del_repeat_sublist (n word_start : nat) : ∀ body body',
  del_repeat n word_start body = Ok body' → body' `sublist_of` body.
Proof.
  induction n as [|n IH]; intros body body'; simpl.
  - by intros [= ->].
  - case_decide; [|done]. intros Hd%IH.
    etrans; [exact Hd|]. apply sublist_delete.
Qed.

Lemma del_loop_sublist (to_delete : string) : ∀ fuel i body word word_start outcome,
  del_loop isalnum_char fuel to_delete i body word word_start = Some outcome →
  on_ok (λ body', body' `sublist_of` body) outcome.
Proof.
  induction fuel as [|fuel IH]; intros i body word word_start outcome; [done|].
  simpl. destruct (body !! i) as [e|]; [|by intros [= <-]; simpl].
  destruct (_ && _); [apply IH|].
  destruct (negb _); [|apply IH].
  destruct (String.eqb word to_delete); [|apply IH].
  destruct word_start as [ws|]; [|by intros [= <-]].
  destruct (del_repeat _ _ _) as [body'|err] eqn:Hdel; [|by intros [= <-]].
  intros Hrest%IH. apply del_repeat_sublist in Hdel.
  destruct outcome as [final|]; [|done]. simpl in *. by etrans.
Qed.

(** X4.  [del_in_word] only deletes: it ends on every stream and every
    target, and when it does not raise, the body it leaves is a sublist of
    the body it was given, so every event that stays is unaltered and in
    its place among the others. *)
Theorem del_in_word_only_deletes (to_delete : string) body :
  ∃ outcome, del_in_word isalnum_char to_delete body = Some outcome ∧
             on_ok (λ body', body' `sublist_of` body) outcome.
Proof.
  destruct (del_loop_total isalnum_char to_delete (S (length body)) 0 body "" None)
    as [outcome Hout]; [lia|].
  exists outcome. split; [done|]. by eapply del_loop_sublist.
Qed.

Lemma all_chars_app (p : ascii → bool) (s1 s2 : string) :
  all_chars p (s1 +:+ s2) = all_chars p s1 && all_chars p s2.
Proof. induction s1 as [|c s1 IH]; simpl; [done|]. by rewrite IH, andb_assoc. Qed.

Lemma isalnum_all_chars (c : string) :
  isalnum isalnum_char c = true → all_chars isalnum_char c = true.
Proof. by destruct c. Qed.

Lemma isalnum_app word (c : string) :
  word = "" ∨ isalnum isalnum_char word = true →
  isalnum isalnum_char c = true →
  isalnum isalnum_char (word +:+ c) = true.
Proof.
  intros [->|Hw] Hc; [done|].
  destruct word as [|a word]; [done|]. simpl in *.
  apply andb_true_iff in Hw as [Ha Hw]. rewrite Ha. simpl.
  rewrite all_chars_app, Hw. simpl. by apply isalnum_all_chars.
Qed.

Lemma del_loop_no_match (to_delete : string) :
  isalnum isalnum_char to_delete = false →
  ∀ fuel i body word word_start,
    length body - i < fuel →
    word = "" ∨ isalnum isalnum_char word = true →
    del_loop isalnum_char fuel to_delete i body word word_start = Some (Ok body).
Proof.
  intros Htd. induction fuel as [|fuel IH]; intros i body word word_start Hfuel Hword; [lia|].
  cbn [del_loop]. destruct (body !! i) as [e|] eqn:He; [|done].
  apply lookup_lt_Some in He.
  destruct (String.eqb (kind e) "i" && isalnum isalnum_char (data e)) eqn:Hev.
  - apply IH; [lia|]. right. apply andb_true_iff in Hev as [_ Hev].
    by apply isalnum_app.
  - destruct (String.eqb_spec word "") as [->|Hne]; simpl.
    { apply IH; [lia|by left]. }
    destruct (String.eqb_spec word to_delete) as [->|_].
    + destruct Hword as [?|Hword]; [done|]. congruence.
    + apply IH; [lia|by left].
Qed.

(** X5.  A target that is empty or holds a character that is not
    alphanumeric is never found: the words [del_in_word] puts together are
    made of alphanumeric characters only, and the body stays as it is. *)
Theorem del_in_word_symbol_target (to_delete : string) body :
  isalnum isalnum_char to_delete = false →
  del_in_word isalnum_char to_delete body = Some (Ok body).
Proof. intros Htd. apply del_loop_no_match; [done|lia|by left]. Qed.

Lemma words_apart_lookup body : ∀ (i : nat) e e',
  words_apart isalnum_char body = true →
  body !! i = Some e → body !! (S i) = Some e' →
  word_event isalnum_char e = true → word_event isalnum_char e' = false.
Proof.
  induction body as [|e0 body IH]; intros i e e' Hap Hi HSi He; [done|].
  destruct body as [|e1 body]; [done|].
  cbn [words_apart] in Hap. apply andb_true_iff in Hap as [Hpair Hap].
  destruct i as [|i].
  - simpl in *. injection Hi as <-. injection HSi as <-.
    rewrite He in Hpair. simpl in Hpair. by apply negb_true_iff in Hpair.
  - by apply (IH i e e').
Qed.

Lemma del_loop_words_apart (to_delete : string) body :
  words_apart isalnum_char body = true →
  Forall (λ e, word_event isalnum_char e = true → data e ≠ to_delete) body →
  ∀ fuel i word word_start,
    length body - i < fuel →
    word = "" ∨ (∃ (j : nat) e', i = S j ∧ body !! j = Some e' ∧
                   word_event isalnum_char e' = true ∧ word = data e') →
    del_loop isalnum_char fuel to_delete i body word word_start = Some (Ok body).
Proof.
  intros Hap Hno. induction fuel as [|fuel IH]; intros i word word_start Hfuel Hword; [lia|].
  cbn [del_loop]. destruct (body !! i) as [e|] eqn:He; [|done].
  pose proof (lookup_lt_Some _ _ _ He) as Hi.
  change (String.eqb (kind e) "i" && isalnum isalnum_char (data e))
    with (word_event isalnum_char e).
  destruct (word_event isalnum_char e) eqn:Hev.
  - destruct Hword as [->|(j & e' & -> & Hj & Hev' & ->)].
    + apply IH; [lia|]. right. exists i, e. by simpl.
    + by rewrite (words_apart_lookup body j e' e Hap Hj He Hev') in Hev.
  - destruct (String.eqb_spec word "") as [->|Hne]; simpl.
    { apply IH; [lia|by left]. }
    destruct Hword as [?|(j & e' & -> & Hj & Hev' & ->)]; [done|].
    destruct (String.eqb_spec (data e') to_delete) as [Heq|_].
    + by destruct (Forall_lookup_1 _ _ _ _ Hno Hj Hev').
    + apply IH; [lia|by left].
Qed.

(** X6.  When no two neighbouring events are both alphanumeric input
    events, as on a terminal that echoes every key, each word that
    [del_in_word] puts together is the payload of one event: unless one
    event carries the whole target, nothing is deleted. *)
Theorem del_in_word_words_apart (to_delete : string) body :
  words_apart isalnum_char body = true →
  Forall (λ e, word_event isalnum_char e = true → data e ≠ to_delete) body →
  del_in_word isalnum_char to_delete body = Some (Ok body).
Proof. intros Hap Hno. apply del_loop_words_apart; [done|done|lia|by left]. Qed.
End DelInWordFrame.

(** X5, witness: a password with a symbol in it. *)
Lemma del_in_word_symbol_target_witness :
  del_in_word ascii_isalnum "p@ss" typed_symbol = Some (Ok typed_symbol).
Proof. apply (del_in_word_symbol_target ascii_isalnum "p@ss" typed_symbol). reflexivity. Defined.

(** X6, witness: the word typed with echo stays in the stream. *)
Lemma del_in_word_words_apart_witness :
  del_in_word ascii_isalnum "del" typed_with_echo = Some (Ok typed_with_echo).
Proof.
  apply (del_in_word_words_apart ascii_isalnum "del" typed_with_echo).
  - reflexivity.
  - repeat (constructor; [by vm_compute|]). constructor.
Defined.

(** ** print_stdin *)

Section PrintStdin.
Context {T : Type} `{Num T}.
Variable isalnum_char : ascii → bool.
Implicit Types (body tail : list (event T)) (word : string).

Lemma print_loop_inputs body : ∀ word (word_start_time : T) out,
  print_loop isalnum_char (filter (λ e, kind e = "i") body) word word_start_time out
  = print_loop isalnum_char body word word_start_time out.
Proof.
  induction body as [|e body IH]; intros word wst out; [done|].
  destruct (String.eqb_spec (kind e) "i") as [Hi|Hi].
  - rewrite filter_cons_True by done. cbn [print_loop].
    destruct (String.eqb_spec (kind e) "i"); [|done].
    destruct (isalnum _ _); [apply IH|]. destruct (negb _); apply IH.
  - rewrite filter_cons_False by done. cbn [print_loop].
    destruct (String.eqb_spec (kind e) "i"); [done|]. apply IH.
Qed.

(** X7.  [print_stdin] reads input events only: output events between two
    keys neither end a word nor show up, so the lines printed for a body are
    the lines printed for its input events alone.  ([del_in_word] ends a word
    at every event that is not an input.) *)
Theorem print_stdin_inputs_only body :
  print_stdin isalnum_char (filter (λ e, kind e = "i") body)
  = print_stdin isalnum_char body.
Proof. apply print_loop_inputs. Qed.

Lemma print_loop_open_word tail :
  Forall (λ e, word_event isalnum_char e = true) tail →
  ∀ word (word_start_time : T) out,
    print_loop isalnum_char tail word word_start_time out = out.
Proof.
  induction 1 as [|e tail He _ IH]; intros word wst out; [done|].
  cbn [print_loop]. unfold word_event in He.
  apply andb_true_iff in He as [-> ->]. apply IH.
Qed.

Lemma print_loop_app body tail :
  Forall (λ e, word_event isalnum_char e = true) tail →
  ∀ word (word_start_time : T) out,
    print_loop isalnum_char (body ++ tail) word word_start_time out
    = print_loop isalnum_char body word word_start_time out.
Proof.
  intros Htail. induction body as [|e body IH]; intros word wst out.
  - by apply print_loop_open_word.
  - cbn [app print_loop]. destruct (String.eqb _ _); [|apply IH].
    destruct (isalnum _ _); [apply IH|]. destruct (negb _); apply IH.
Qed.

(** X8.  A word is printed when the input event that ends it is read:
    alphanumeric input events at the end of the stream, with nothing after
    them, add no line to what [print_stdin] prints. *)
Theorem print_stdin_open_word body tail :
  Forall (λ e, word_event isalnum_char e = true) tail →
  print_stdin isalnum_char (body ++ tail) = print_stdin isalnum_char body.
Proof. intros Htail. by apply print_loop_app. Qed.
End PrintStdin.

(** X8, witness: a second word typed after the fixture and left open. *)
Lemma print_stdin_open_word_witness :
  let tail := [ev 5.0 "i" "d"; ev 5.1 "i" "e"; ev 5.2 "i" "l"] in
  print_stdin ascii_isalnum (fixture ++ tail) = print_stdin ascii_isalnum fixture.
Proof.
  intros tail. apply (print_stdin_open_word ascii_isalnum fixture tail).
  repeat constructor.
Defined.

(** On the stream typed with echo [print_stdin] shows the word that
    [del_in_word] does not find. *)
Example print_stdin_typed_with_echo :
  print_stdin ascii_isalnum typed_with_echo = [PrintWord 1.0%float "del"].
Proof. vm_compute. reflexivity. Qed.

(** ** More of quantize *)

Section QuantizeMore.
Context {T : Type} `{Num T}.
Implicit Types (body r : list (event T)) (e : event T).

Lemma py_min_idem (m g : T) : py_min m (py_min m g) = py_min m g.
Proof.
  unfold py_min. destruct (num_lt g m) eqn:Hg; [by rewrite Hg|].
  by destruct (num_lt m m).
Qed.

Lemma set_ts_set_ts e (u v : T) : set_ts (set_ts e u) v = set_ts e v.
Proof. done. Qed.

Lemma requantize_fixed `{!ExactNum T} (m : T) r : ∀ p q : T,
  rebuilt_from p
    (gaps (py_min m) p (ts <$> rebuilt_from p (gaps (py_min m) q (ts <$> r)) r))
    (rebuilt_from p (gaps (py_min m) q (ts <$> r)) r)
  = rebuilt_from p (gaps (py_min m) q (ts <$> r)) r.
Proof.
  induction r as [|e r IH]; intros p q; [done|].
  rewrite fmap_cons. cbn [gaps rebuilt_from]. rewrite fmap_cons. cbn [gaps rebuilt_from ts set_ts].
  rewrite sub_add_cancel, py_min_idem. f_equal. apply IH.
Qed.

(** X9.  When the arithmetic is exact, [quantize] is idempotent: a second
    call with the same delay gives the stream of the first. *)
Theorem quantize_idempotent `{!ExactNum T} (max_delay : T) body :
  ∃ body', quantize max_delay body = Ok body' ∧ quantize max_delay body' = Ok body'.
Proof.
  eexists. split; [apply quantize_closed|].
  rewrite quantize_closed. destruct body as [|e r]; [done|].
  f_equal. f_equal. apply requantize_fixed.
Qed.

Context `{!OrderedNum T} `{!MonotoneNum T}.

Lemma lt_false_trans (a b c : T) :
  num_lt b a = false → num_lt c b = false → num_lt c a = false.
Proof.
  intros Hba Hcb. destruct (num_lt c a) eqn:Hca; [|done].
  destruct (lt_cotrans c b a Hca); congruence.
Qed.

Lemma py_min_nonneg (m g : T) :
  num_lt m num_zero = false → num_lt g num_zero = false →
  num_lt (py_min m g) num_zero = false.
Proof. intros Hm Hg. unfold py_min. by destruct (num_lt g m). Qed.

Lemma rebuilt_chronological (m : T) r :
  num_lt m num_zero = false →
  ∀ pn po : T,
    chronological (po :: (ts <$> r)) = true →
    forallb (λ y, negb (num_lt y pn))
      (ts <$> rebuilt_from pn (gaps (py_min m) po (ts <$> r)) r) = true ∧
    chronological (ts <$> rebuilt_from pn (gaps (py_min m) po (ts <$> r)) r) = true.
Proof.
  intros Hm. induction r as [|e r IH]; intros pn po Hs; [done|].
  rewrite fmap_cons in Hs. cbn [chronological forallb] in Hs.
  apply andb_true_iff in Hs as [Hhd Hs]. apply andb_true_iff in Hhd as [Hhd _].
  apply negb_true_iff in Hhd.
  rewrite fmap_cons. cbn [gaps rebuilt_from]. rewrite fmap_cons.
  cbn [chronological forallb ts set_ts].
  destruct (IH (pn ⊕ py_min m (ts e ⊖ po)) (ts e) Hs) as [Hall Hrest].
  assert (num_lt (pn ⊕ py_min m (ts e ⊖ po)) pn = false) as Hstep.
  { apply add_nonneg, py_min_nonneg; [done|]. by apply sub_nonneg. }
  rewrite Hstep, Hall, Hrest. split; [|done]. simpl.
  apply forallb_forall. intros y Hy. rewrite forallb_forall in Hall.
  apply negb_true_iff. apply Hall, negb_true_iff in Hy.
  by eapply lt_false_trans.
Qed.

(** X10.  When [<] is a total order that [+] and [-] respect and the delay
    is not negative, [quantize] keeps a chronological stream chronological. *)
Theorem quantize_chronological (max_delay : T) body :
  num_lt max_delay num_zero = false →
  chronological (timestamps_of body) = true →
  ∃ body', quantize max_delay body = Ok body' ∧
           chronological (timestamps_of body') = true.
Proof.
  intros Hm Hs. eexists. split; [apply quantize_closed|].
  destruct body as [|e r]; [done|].
  unfold timestamps_of in *. rewrite fmap_cons in *. cbn [chronological].
  destruct (rebuilt_chronological max_delay r Hm (ts e) (ts e) Hs) as [-> ->]. done.
Qed.
End QuantizeMore.

(** X9, witness: the fixture with rational timestamps. *)
Lemma quantize_idempotent_witness :
  ∃ body', quantize (Q2Qc 1) fixture_exact = Ok body' ∧ quantize (Q2Qc 1) body' = Ok body'.
Proof. apply (quantize_idempotent (Q2Qc 1) fixture_exact). Defined.

(** X10, witness: the fixture with rational timestamps and the default delay. *)
Lemma quantize_chronological_witness :
  ∃ body', quantize (Q2Qc 1) fixture_exact = Ok body' ∧
           chronological (timestamps_of body') = true.
Proof. apply (quantize_chronological (Q2Qc 1) fixture_exact); reflexivity. Defined.

(** ** More of excise *)

Section ExciseMore.
Context {T : Type} `{Num T}.
Implicit Types (body : list (event T)) (x : T).

Lemma bisect_loop_none_below (a : list T) x :
  (∀ (j : nat) (y : T), a !! j = Some y → num_lt y x = false) →
  ∀ fuel lo hi, bisect_loop fuel a x lo hi = lo.
Proof.
  intros Hge. induction fuel as [|fuel IH]; intros lo hi; cbn [bisect_loop]; [done|].
  case_decide; [|done]. destruct (a !! _) as [am|] eqn:Ham; [|done].
  by rewrite (Hge _ _ Ham).
Qed.

Lemma bisect_loop_all_below (a : list T) x :
  (∀ (j : nat) (y : T), a !! j = Some y → num_lt y x = true) →
  ∀ fuel lo hi, hi - lo ≤ fuel → lo ≤ hi → hi ≤ length a →
                bisect_loop fuel a x lo hi = hi.
Proof.
  intros Hlt. induction fuel as [|fuel IH]; intros lo hi Hf Hle Hhi; cbn [bisect_loop]; [lia|].
  case_decide as Hlo; [|lia].
  pose proof (mid_bounds lo hi Hlo).
  destruct (lookup_lt_is_Some_2 a ((lo + hi) / 2)) as [am Ham]; [lia|].
  rewrite Ham, (Hlt _ _ Ham). apply IH; lia.
Qed.

Lemma py_sorted_singleton {A} (key : A → nat) (x : A) : py_sorted key [x] = [x].
Proof. reflexivity. Qed.

Lemma parse_whole_range (starttime endtime : T) body :
  Forall (λ e, num_lt (ts e) starttime = false ∧ num_lt (ts e) endtime = true) body →
  parse_ranges_to_indices [(starttime, endtime)] body = [(0, length body)].
Proof.
  intros Hall. rewrite parse_ranges_to_indices_closed.
  change (resolved_by ?t <$> [?r]) with [resolved_by t r].
  rewrite py_sorted_singleton.
  unfold resolved_by, bisect_left. cbn [fst snd].
  rewrite bisect_loop_none_below.
  2:{ intros j y Hy. unfold timestamps_of in Hy. rewrite list_lookup_fmap in Hy.
      destruct (body !! j) as [e|] eqn:He; [|done]. injection Hy as <-.
      by destruct (Forall_lookup_1 _ _ _ _ Hall He). }
  rewrite bisect_loop_all_below; [|..|lia|lia|done].
  2:{ intros j y Hy. unfold timestamps_of in Hy. rewrite list_lookup_fmap in Hy.
      destruct (body !! j) as [e|] eqn:He; [|done]. injection Hy as <-.
      by destruct (Forall_lookup_1 _ _ _ _ Hall He). }
  unfold timestamps_of. by rewrite length_fmap.
Qed.

(** X12.  A single range that covers every event (no timestamp below its
    start, every timestamp below its end: the defaults 0 and infinity of the
    command line on any recording) leaves [excise] with an empty body, and
    [renormalize] raises [IndexError]. *)
Theorem excise_everything_raises (starttime endtime : T) body :
  Forall (λ e, num_lt (ts e) starttime = false ∧ num_lt (ts e) endtime = true) body →
  excise [(starttime, endtime)] body = Raise IndexError.
Proof.
  intros Hall. pose proof (parse_whole_range starttime endtime body Hall) as Hidx.
  rewrite excise_closed; [|done|rewrite Hidx; simpl; lia].
  rewrite Hidx. cbn [splice_from fst snd]. unfold slice.
  rewrite drop_all, take_0. done.
Qed.

Context `{!ExactNum T} `{!OrderedNum T}.

Lemma py_min_bounded (m g : T) : num_lt m (py_min m g) = false.
Proof.
  unfold py_min. destruct (num_lt g m) eqn:Hg.
  - by apply lt_asym.
  - apply lt_irrefl.
Qed.

(** After [renormalize] and [quantize] with the default delay a stream
    starts at 0 and has no gap above 1. *)
Lemma renormalize_quantize_paced (kept : list (event T)) :
  on_ok (λ body',
           (body' ≠ [] → ts <$> head body' = Some num_zero) ∧
           ∀ (i : nat) a' b',
             body' !! i = Some a' → body' !! (S i) = Some b' →
             num_lt num_one (ts b' ⊖ ts a') = false)
        (new_body ← renormalize kept; quantize num_one new_body).
Proof.
  destruct kept as [|e r]; [done|].
  rewrite renormalize_cons, bind_Ok.
  destruct (quantize_recurrence num_one
              ((λ line, set_ts line (ts line ⊖ ts e)) <$> e :: r))
    as (body' & -> & Hlen & Hhd & Hrec).
  cbn [on_ok]. split.
  - intros _. rewrite Hhd. simpl. by rewrite sub_diag.
  - intros i a' b' Ha' Hb'.
    destruct (lookup_lt_is_Some_2 ((λ line, set_ts line (ts line ⊖ ts e)) <$> e :: r) i)
      as [a Ha]; [apply lookup_lt_Some in Ha'; lia|].
    destruct (lookup_lt_is_Some_2 ((λ line, set_ts line (ts line ⊖ ts e)) <$> e :: r) (S i))
      as [b Hb]; [apply lookup_lt_Some in Hb'; lia|].
    destruct (Hrec i a b a' b' Ha Hb Ha' Hb') as (-> & _ & _).
    rewrite sub_add_cancel. apply py_min_bounded.
Qed.

(** X11.  When the arithmetic is exact and [<] is a total order: for
    ranges that resolve to sorted, non-overlapping index ranges (so that no
    event is in the new body twice), a stream that [excise] returns starts
    at time 0 and has no gap between neighbours above the default delay 1. *)
Theorem excise_paced (ranges : list (T * T)) body :
  ranges_chain 0 (parse_ranges_to_indices ranges body) →
  on_ok (λ body',
           (body' ≠ [] → ts <$> head body' = Some num_zero) ∧
           ∀ (i : nat) a' b',
             body' !! i = Some a' → body' !! (S i) = Some b' →
             num_lt num_one (ts b' ⊖ ts a') = false)
        (excise ranges body).
Proof.
  intros Hc. destruct ranges as [|rng ranges]; [done|].
  rewrite excise_closed by done. apply renormalize_quantize_paced.
Qed.
End ExciseMore.

(** X12, witness: the whole fixture, from 0 to infinity. *)
Lemma excise_everything_raises_witness :
  excise [(0, infinity)%float] fixture = Raise IndexError.
Proof.
  apply (excise_everything_raises 0%float infinity fixture).
  repeat (constructor; [by vm_compute|]). constructor.
Defined.

(** X11, witness: two ranges cut out of the fixture with rational timestamps. *)
Lemma excise_paced_witness :
  on_ok (λ body',
           (body' ≠ [] → ts <$> head body' = Some (Q2Qc 0)) ∧
           ∀ (i : nat) a' b',
             body' !! i = Some a' → body' !! (S i) = Some b' →
             Qc_ltb (Q2Qc 1) (ts b' - ts a')%Qc = false)
        (excise [(Q2Qc (3 # 2), Q2Qc (5 # 2)); (Q2Qc (61 # 20), Q2Qc (7 # 2))]
                fixture_exact).
Proof.
  refine (excise_paced [(Q2Qc (3 # 2), Q2Qc (5 # 2)); (Q2Qc (61 # 20), Q2Qc (7 # 2))]
            fixture_exact _).
  vm_compute. lia.
Defined.

(** ** More of parse_ranges_to_indices and speed *)

Section SpeedMore.
Context {T : Type} `{Num T}.
Implicit Types (body r : list (event T)) (e : event T) (deltas : list T).

(** X16.  Sorted or not, a stream gives every range a pair of positions of
    the body: [parse_ranges_to_indices] returns one index range per time
    range, and no index in it is beyond the length of the body. *)
Theorem parse_ranges_to_indices_in_bounds (ranges : list (T * T)) body :
  length (parse_ranges_to_indices ranges body) = length ranges ∧
  Forall (λ rng : nat * nat, rng.1 ≤ length body ∧ rng.2 ≤ length body)
         (parse_ranges_to_indices ranges body).
Proof.
  rewrite parse_ranges_to_indices_closed. split.
  - by rewrite (Permutation_length (py_sorted_perm _ _)), length_fmap.
  - rewrite (py_sorted_perm fst _). apply Forall_fmap, Forall_forall.
    intros rng _. unfold resolved_by. simpl.
    pose proof (bisect_left_le (timestamps_of body) rng.1).
    pose proof (bisect_left_le (timestamps_of body) rng.2).
    unfold timestamps_of in *. rewrite length_fmap in *. split; assumption.
Qed.

Lemma length_scale_range (speedup : T) deltas (idx_range : nat * nat) :
  length (scale_range speedup deltas idx_range) = length deltas.
Proof.
  destruct idx_range as [s e]. unfold scale_range, slice_assign, slice.
  rewrite !length_app, length_fmap, !length_take, !length_drop. lia.
Qed.

Lemma length_scale_ranges (speedup : T) (idx_ranges : list (nat * nat)) : ∀ deltas,
  length (foldl (scale_range speedup) deltas idx_ranges) = length deltas.
Proof.
  induction idx_ranges as [|rng rs IH]; intros deltas; simpl; [done|].
  by rewrite IH, length_scale_range.
Qed.

(** X13.  [speed] raises [ZeroDivisionError] for a factor equal to 0, before
    it touches the stream.  For any other factor it returns, whatever the
    ranges (overlapping, reversed, outside the recording): no index is out
    of range, the first event is as it was, and the events keep their order,
    kinds and payloads. *)
Theorem speed_safe (ranges : list (T * T)) (factor : T) body :
  (num_eq factor num_zero = true →
   speed ranges factor body = Raise ZeroDivisionError) ∧
  (num_eq factor num_zero = false →
   ∃ body', speed ranges factor body = Ok body' ∧
            head body' = head body ∧
            Forall2 (λ e' e, kind e' = kind e ∧ data e' = data e) body' body).
Proof.
  unfold speed, py_div. split; intros ->; [done|].
  rewrite bind_Ok. unfold timestamps_of. rewrite deltas_of_closed, bind_Ok.
  set (deltas' := foldl _ _ _).
  assert (length deltas' = S (length body - 1)) as Hlen.
  { unfold deltas'. rewrite length_scale_ranges. destruct body as [|e r]; [done|].
    simpl. rewrite length_gaps, length_fmap. lia. }
  rewrite rebuild_closed by lia. eexists. split; [done|].
  destruct body as [|e r]; [by split; [|constructor]|].
  split; [done|]. constructor; [done|].
  apply rebuilt_from_frame. rewrite length_drop. simpl in Hlen. lia.
Qed.

Lemma scale_range_lookup (speedup : T) deltas (s e i : nat) (d : T) :
  deltas !! i = Some d →
  scale_range speedup deltas (s, e) !! i
  = Some (if decide (s ≤ i < e) then d ⊗ speedup else d).
Proof.
  intros Hd. pose proof (lookup_lt_Some _ _ _ Hd) as Hi.
  unfold scale_range, slice_assign, slice.
  destruct (decide (i < s)) as [Hlt|Hge].
  - rewrite lookup_app_l by (rewrite length_take; lia).
    rewrite lookup_take_lt by done. rewrite Hd. case_decide; [lia|done].
  - rewrite lookup_app_r by (rewrite length_take; lia).
    rewrite length_take. replace (s `min` length deltas) with s by lia.
    destruct (decide (i < e)) as [Hin|Hout].
    + rewrite lookup_app_l by (rewrite length_fmap, length_take, length_drop; lia).
      rewrite list_lookup_fmap, lookup_take_lt, lookup_drop by lia.
      replace (s + (i - s)) with i by lia. rewrite Hd. simpl.
      case_decide; [done|lia].
    + rewrite lookup_app_r by (rewrite length_fmap, length_take, length_drop; lia).
      rewrite length_fmap, length_take, length_drop, lookup_drop.
      replace (s `max` e + (i - s - (e - s) `min` (length deltas - s))) with i by lia.
      rewrite Hd. case_decide; [lia|done].
Qed.

Lemma gaps_lookup (f : T → T) r : ∀ e (i : nat) (a b : event T),
  (e :: r) !! i = Some a → (e :: r) !! (S i) = Some b →
  gaps f (ts e) (ts <$> r) !! i = Some (f (ts b ⊖ ts a)).
Proof.
  induction r as [|e1 r IH]; intros e i a b Ha Hb; [by destruct i|].
  destruct i as [|i]; simpl in *.
  - injection Ha as <-. by injection Hb as <-.
  - by apply IH.
Qed.

Lemma rebuilt_step r : ∀ e' (ds : list T) (i : nat) (a' b' : event T),
  (e' :: rebuilt_from (ts e') ds r) !! i = Some a' →
  (e' :: rebuilt_from (ts e') ds r) !! (S i) = Some b' →
  ∃ d : T, ds !! i = Some d ∧ ts b' = ts a' ⊕ d.
Proof.
  induction r as [|e1 r IH]; intros e' ds i a' b' Ha' Hb';
    [by destruct i, ds|].
  destruct ds as [|d ds]; [by destruct i|].
  destruct i as [|i]; simpl in *.
  - injection Ha' as <-. injection Hb' as <-. by exists d.
  - by apply (IH (set_ts e1 (ts e' ⊕ d)) ds i).
Qed.

(** X14.  What [speed] does with one range, when the arithmetic is exact and
    the factor is not 0.  With [s] and [e] the indices the range resolves
    to, the gap that leads to event [j] is multiplied by [1 / factor] when
    [s <= j < e] and stays as it was otherwise; the first timestamp stays. *)
Theorem speed_scales_range `{!ExactNum T} (starttime endtime factor : T) body :
  num_eq factor num_zero = false →
  ∃ body', speed [(starttime, endtime)] factor body = Ok body' ∧
    head body' = head body ∧
    ∀ (i : nat) (a b a' b' : event T),
      body !! i = Some a → body !! (S i) = Some b →
      body' !! i = Some a' → body' !! (S i) = Some b' →
      ts b' ⊖ ts a' =
        if decide (bisect_left (timestamps_of body) starttime ≤ S i
                   < bisect_left (timestamps_of body) endtime)
        then (ts b ⊖ ts a) ⊗ (num_one ⊘ factor)
        else ts b ⊖ ts a.
Proof.
  intros Hf. unfold speed, py_div. rewrite Hf, bind_Ok.
  rewrite parse_ranges_to_indices_closed.
  change (resolved_by ?t <$> [?rng]) with [resolved_by t rng].
  rewrite py_sorted_singleton. unfold resolved_by. cbn [fst snd foldl].
  unfold timestamps_of at 1. rewrite deltas_of_closed, bind_Ok.
  set (s := bisect_left (timestamps_of body) starttime).
  set (e := bisect_left (timestamps_of body) endtime).
  set (deltas := num_zero :: _).
  assert (length deltas = S (length body - 1)) as Hlen.
  { unfold deltas, timestamps_of. destruct body as [|e0 r]; [done|].
    rewrite fmap_cons. cbn [length]. rewrite length_gaps, length_fmap. lia. }
  rewrite rebuild_closed by (rewrite length_scale_range; lia).
  eexists. split; [done|].
  destruct body as [|e0 r]; [by split; [|intros []]|].
  split; [done|]. intros i a b a' b' Ha Hb Ha' Hb'.
  destruct (rebuilt_step r e0 _ i a' b' Ha' Hb') as (d & Hd & ->).
  rewrite sub_add_cancel. rewrite lookup_drop in Hd.
  assert (deltas !! (1 + i) = Some (ts b ⊖ ts a)) as Hgap.
  { unfold deltas. simpl. by apply (gaps_lookup id r e0 i a b). }
  rewrite (scale_range_lookup _ _ _ _ _ _ Hgap) in Hd.
  by injection Hd as <-.
Qed.
End SpeedMore.

(** X14, witness: the word of the fixture typed twice as fast. *)
Lemma speed_scales_range_witness :
  ∃ body', speed [(Q2Qc (5 # 2), Q2Qc (7 # 2))] (Q2Qc 2) fixture_exact = Ok body' ∧
    head body' = head fixture_exact ∧
    ∀ (i : nat) (a b a' b' : event Qc),
      fixture_exact !! i = Some a → fixture_exact !! (S i) = Some b →
      body' !! i = Some a' → body' !! (S i) = Some b' →
      (ts b' - ts a')%Qc =
        if decide (bisect_left (timestamps_of fixture_exact) (Q2Qc (5 # 2)) ≤ S i
                   < bisect_left (timestamps_of fixture_exact) (Q2Qc (7 # 2)))
        then ((ts b - ts a) * (Q2Qc 1 / Q2Qc 2))%Qc
        else (ts b - ts a)%Qc.
Proof.
  exact (speed_scales_range (Q2Qc (5 # 2)) (Q2Qc (7 # 2)) (Q2Qc 2) fixture_exact
           eq_refl).
Defined.

(** ** smush *)

Section Smush.
Context {T : Type} `{Num T}.
Implicit Types (body pre post : list (event T)) (e : event T).

Lemma smushed_frame (start : T) body :
  Forall2 (λ e' e, kind e' = kind e ∧ data e' = data e)
    ((λ ln, if num_lt (ts ln) start then set_ts ln num_zero else ln) <$> body) body.
Proof.
  apply Forall2_fmap_l, Forall_Forall2_diag, Forall_forall.
  intros e _. simpl. by destruct (num_lt (ts e) start).
Qed.

Lemma requantized_frame (m : T) (l : list (event T)) :
  Forall2 (λ e' e, kind e' = kind e ∧ data e' = data e)
    match l with
    | [] => []
    | e :: r => e :: rebuilt_from (ts e) (gaps (py_min m) (ts e) (ts <$> r)) r
    end l.
Proof.
  destruct l as [|e r]; [constructor|].
  constructor; [done|]. apply rebuilt_from_frame.
  by rewrite length_gaps, length_fmap.
Qed.

Lemma rebuilt_zero_prefix (f : T → T) (rest : list (event T)) :
  f num_zero = num_zero →
  num_zero ⊖ num_zero = (num_zero : T) →
  num_zero ⊕ num_zero = (num_zero : T) →
  ∀ (pre : list (event T)),
    Forall (λ e, ts e = num_zero) pre →
    ∀ (i : nat) e',
      i < length pre →
      rebuilt_from num_zero (gaps f num_zero (ts <$> pre ++ rest)) (pre ++ rest) !! i
        = Some e' →
      ts e' = num_zero.
Proof.
  intros Hf Hsub Hadd.
  induction pre as [|e pre IH]; intros Hpre i e' Hi; [simpl in Hi; lia|].
  apply Forall_cons in Hpre as [He Hpre].
  cbn [app]. rewrite fmap_cons. cbn [gaps rebuilt_from].
  rewrite He, Hsub, Hf, Hadd.
  destruct i as [|i]; simpl.
  - by intros [= <-].
  - apply IH; [done|]. simpl in Hi. lia.
Qed.

(** X15.  Whatever the numbers, [smush] never raises and leaves the
    events, their order, kinds and payloads alone.  Where 0 < 1, 0 - 0 = 0
    and 0 + 0 = 0 (binary64 and the rationals alike), the events at the head
    of the stream whose timestamps are below [start] all end at time 0. *)
Theorem smush_collapses_head (start : T) pre post :
  ∃ body', smush start (pre ++ post) = Ok body' ∧
    Forall2 (λ e' e, kind e' = kind e ∧ data e' = data e) body' (pre ++ post) ∧
    (num_lt (num_zero : T) num_one = true →
     num_zero ⊖ num_zero = (num_zero : T) →
     num_zero ⊕ num_zero = (num_zero : T) →
     Forall (λ e, num_lt (ts e) start = true) pre →
     ∀ (i : nat) e', i < length pre → body' !! i = Some e' → ts e' = num_zero).
Proof.
  unfold smush.
  set (z := λ ln : event T, if num_lt (ts ln) start then set_ts ln num_zero else ln).
  rewrite quantize_closed. eexists. split; [done|]. split.
  - eapply Forall2_trans; [|apply requantized_frame|apply smushed_frame].
    by intros x y w [-> ->] [-> ->].
  - intros H01 Hsub Hadd Hpre.
    destruct pre as [|e pre]; [intros i e' Hi; simpl in Hi; lia|].
    apply Forall_cons in Hpre as [He Hpre].
    cbn [app]. rewrite fmap_cons, fmap_app.
    assert (z e = set_ts e num_zero) as -> by (unfold z; by rewrite He).
    cbn [ts set_ts].
    intros [|i] e' Hi; cbn [lookup list_lookup]; [by intros [= <-]|].
    apply (rebuilt_zero_prefix (py_min num_one) (z <$> post)).
    + unfold py_min. by rewrite H01.
    + done.
    + done.
    + apply Forall_fmap, Forall_forall. intros x Hx.
      rewrite Forall_forall in Hpre. unfold z. simpl. by rewrite (Hpre x Hx).
    + rewrite length_fmap. simpl in Hi. lia.
Qed.
End Smush.

(** X15, witness: the two events of the fixture before 2.5, on binary64. *)
Lemma smush_collapses_head_witness :
  ∃ body', smush 2.5%float (take 2 fixture ++ drop 2 fixture) = Ok body' ∧
    Forall2 (λ e' e, kind e' = kind e ∧ data e' = data e) body'
            (take 2 fixture ++ drop 2 fixture) ∧
    ∀ (i : nat) e', i < length (take 2 fixture) → body' !! i = Some e' →
                    ts e' = 0%float.
Proof.
  destruct (smush_collapses_head 2.5%float (take 2 fixture) (drop 2 fixture))
    as (body' & Hrun & Hframe & Hhead).
  exists body'. split; [exact Hrun|]. split; [exact Hframe|].
  apply Hhead; try reflexivity. repeat constructor.
Defined.

(** ** Chronological order through excise *)

Section ExciseOrder.
Context {T : Type} `{Num T}.
Implicit Types (body : list (event T)) (l : list T).

Lemma timestamps_sublist (kept body : list (event T)) :
  kept `sublist_of` body → timestamps_of kept `sublist_of` timestamps_of body.
Proof. induction 1; simpl; by constructor. Qed.

Lemma chronological_sublist l1 l2 :
  l1 `sublist_of` l2 → chronological l2 = true → chronological l1 = true.
Proof.
  induction 1 as [|x l1 l2 Hsub IH|x l1 l2 Hsub IH]; intros Hs; [done|..];
    cbn [chronological] in *; apply andb_true_iff in Hs as [Hhd Hs].
  - rewrite (IH Hs), andb_true_r. apply forallb_forall. intros y Hy.
    rewrite forallb_forall in Hhd. apply Hhd.
    apply list_elem_of_In. eapply elem_of_sublist; [|done]. by apply list_elem_of_In.
  - by apply IH.
Qed.

Context `{!ExactNum T} `{!OrderedNum T} `{!MonotoneNum T}.

Lemma shift_monotone (c x y : T) :
  num_lt y x = false → num_lt (y ⊖ c) (x ⊖ c) = false.
Proof.
  intros Hxy. rewrite <- (add_sub_cancel (x ⊖ c) (y ⊖ c)) at 1.
  apply add_nonneg. rewrite sub_sub_cancel. by apply sub_nonneg.
Qed.

Lemma chronological_shift (c : T) l :
  chronological l = true → chronological ((λ t, t ⊖ c) <$> l) = true.
Proof.
  induction l as [|x l IH]; intros Hs; [done|].
  rewrite fmap_cons. cbn [chronological] in *.
  apply andb_true_iff in Hs as [Hhd Hs]. rewrite (IH Hs), andb_true_r.
  apply forallb_forall. intros y' Hy'%list_elem_of_In.
  apply list_elem_of_fmap in Hy' as (y & -> & Hy).
  rewrite forallb_forall in Hhd. apply negb_true_iff, shift_monotone, negb_true_iff.
  by apply Hhd, list_elem_of_In.
Qed.

(** X17.  When the arithmetic is exact, [<] is a total order that [+] and
    [-] respect and 1 is not below 0: for ranges that resolve to sorted,
    non-overlapping index ranges, a stream that [excise] returns from a
    chronological stream is chronological. *)
Theorem excise_chronological (ranges : list (T * T)) body :
  num_lt (num_one : T) num_zero = false →
  ranges_chain 0 (parse_ranges_to_indices ranges body) →
  chronological (timestamps_of body) = true →
  on_ok (λ body', chronological (timestamps_of body') = true) (excise ranges body).
Proof.
  intros H10 Hc Hs. destruct ranges as [|rng ranges]; [done|].
  rewrite excise_closed by done. rewrite (splice_from_filter _ _ 0 Hc), drop_0.
  set (kept := filter_index _ 0 body).
  assert (chronological (timestamps_of kept) = true) as Hkept.
  { apply (chronological_sublist _ (timestamps_of body)); [|done].
    apply timestamps_sublist, filter_index_sublist. }
  destruct kept as [|e r]; [done|].
  rewrite renormalize_cons, bind_Ok, quantize_closed. cbn [on_ok].
  set (shifted := (λ line, set_ts line (ts line ⊖ ts e)) <$> e :: r).
  assert (chronological (timestamps_of shifted) = true) as Hshift.
  { unfold shifted, timestamps_of. rewrite <- list_fmap_compose.
    rewrite (list_fmap_ext _ ((λ t, t ⊖ ts e) ∘ ts) (e :: r)) by done.
    rewrite list_fmap_compose. by apply chronological_shift. }
  destruct shifted as [|e' r']; [done|].
  unfold timestamps_of in *. rewrite fmap_cons in *. cbn [chronological].
  destruct (rebuilt_chronological num_one r' H10 (ts e') (ts e') Hshift) as [-> ->]. done.
Qed.
End ExciseOrder.

(** X17, witness: two ranges cut out of the fixture with rational timestamps. *)
Lemma excise_chronological_witness :
  on_ok (λ body', chronological (timestamps_of body') = true)
        (excise [(Q2Qc (3 # 2), Q2Qc (5 # 2)); (Q2Qc (61 # 20), Q2Qc (7 # 2))]
                fixture_exact).
Proof.
  apply (excise_chronological
           [(Q2Qc (3 # 2), Q2Qc (5 # 2)); (Q2Qc (61 # 20), Q2Qc (7 # 2))] fixture_exact).
  - reflexivity.
  - vm_compute. lia.
  - reflexivity.
Defined.
